(** * Filemaid: the rule-matching and action-application engine

  A shallow embedding of [filemaid.py].  Python values that come out of
  the YAML loader are modelled by [Data]; exceptions by [Exn]; the
  operating system, the regular-expression engine, libmagic and the
  YAML loader are interfaces ([FileSystem], [Platform]) the program is
  parametric in.  Code that touches the file system lives in the monad
  [M], a state-and-exception monad over [World].

  Python strings are modelled by Rocq strings read as sequences of
  code points below 256; paths follow [posixpath]. *)

From Stdlib Require Import ZArith Floats Uint63 Ascii String.
From stdpp Require Import gmap strings list pretty.

Set Default Proof Using "Type".
Set Warnings "-register-all".

(** ** Python strings *)

Module PyStr.

(** [str.isspace] on code points below 256. *)
Definition is_space (a : ascii) : bool :=
  let n := nat_of_ascii a in
  ((9 <=? n)%nat && (n <=? 13)%nat) || ((28 <=? n)%nat && (n <=? 32)%nat)
  || (n =? 133)%nat || (n =? 160)%nat.

Definition snoc (s : string) (a : ascii) : string := s +:+ String a "".

Definition flush (cur : string) (k : list string) : list string :=
  match cur with "" => k | _ => cur :: k end.

Fixpoint split_go (cur s : string) : list string :=
  match s with
  | "" => flush cur []
  | String a s' =>
      if is_space a then flush cur (split_go "" s') else split_go (snoc cur a) s'
  end.

(** [s.split()]: the maximal runs of non-whitespace characters. *)
Definition split (s : string) : list string := split_go "" s.

Definition lower_char (a : ascii) : ascii :=
  let n := nat_of_ascii a in
  if ((65 <=? n)%nat && (n <=? 90)%nat)
     || ((192 <=? n)%nat && (n <=? 222)%nat && negb (n =? 215)%nat)
  then ascii_of_nat (n + 32) else a.

(** [s.lower()]. *)
Fixpoint lower (s : string) : string :=
  match s with
  | "" => ""
  | String a s' => String (lower_char a) (lower s')
  end.

Definition startswith (s p : string) : bool := String.prefix p s.

Fixpoint last_char (s : string) : option ascii :=
  match s with
  | "" => None
  | String a "" => Some a
  | String _ s' => last_char s'
  end.

(** [s.endswith(c)] for a one-character [c]. *)
Definition endswith_char (s : string) (c : ascii) : bool :=
  match last_char s with Some a => bool_decide (a = c) | None => false end.

(** [s.split(sep)] for a one-character separator: empty pieces are
    kept, and the result is never empty. *)
Fixpoint split_on_go (sep : ascii) (cur s : string) : list string :=
  match s with
  | "" => [cur]
  | String a s' =>
      if bool_decide (a = sep) then cur :: split_on_go sep "" s'
      else split_on_go sep (snoc cur a) s'
  end.

Definition split_on (sep : ascii) (s : string) : list string :=
  split_on_go sep "" s.

(** [sep.join(l)]. *)
Fixpoint join (sep : string) (l : list string) : string :=
  match l with
  | [] => ""
  | [x] => x
  | x :: l' => x +:+ sep +:+ join sep l'
  end.

Definition digit_of (a : ascii) : option Z :=
  let n := nat_of_ascii a in
  if ((48 <=? n)%nat && (n <=? 57)%nat) then Some (Z.of_nat (n - 48)) else None.

(** Decimal digits with single underscores between them, as [int] and
    [float] read them. *)
Fixpoint digits (acc : Z) (after_digit : bool) (s : string) : option Z :=
  match s with
  | "" => if after_digit then Some acc else None
  | String a s' =>
      match digit_of a with
      | Some d => digits (10 * acc + d) true s'
      | None =>
          if bool_decide (a = "_"%char) && after_digit then digits acc false s'
          else None
      end
  end.

(** [int(s)] for a string without surrounding whitespace; [None] is
    [ValueError]. *)
Definition to_int (s : string) : option Z :=
  match s with
  | String "+" s' => digits 0 false s'
  | String "-" s' => Z.opp <$> digits 0 false s'
  | _ => digits 0 false s
  end.

End PyStr.

(** ** POSIX path functions ([posixpath]) *)

Module PosixPath.

Definition isabs (p : string) : bool := PyStr.startswith p "/".

(** [os.path.join(a, b)]. *)
Definition join (a b : string) : string :=
  if PyStr.startswith b "/" then b
  else if bool_decide (a = "") || PyStr.endswith_char a "/" then a +:+ b
  else a +:+ "/" +:+ b.

Definition norm_step (initial_slashes : nat) (new_comps : list string)
    (comp : string) : list string :=
  if bool_decide (comp = "") || bool_decide (comp = ".") then new_comps
  else if negb (bool_decide (comp = ".."))
          || (bool_decide (initial_slashes = 0%nat) && bool_decide (new_comps = []))
          || (match last new_comps with Some c => bool_decide (c = "..") | None => false end)
  then new_comps ++ [comp]
  else removelast new_comps.

(** [os.path.normpath(path)]. *)
Definition normpath (path : string) : string :=
  if bool_decide (path = "") then "."
  else
    let initial_slashes : nat :=
      if PyStr.startswith path "/" then
        if PyStr.startswith path "//" && negb (PyStr.startswith path "///")
        then 2%nat else 1%nat
      else 0%nat in
    let comps := foldl (norm_step initial_slashes) [] (PyStr.split_on "/" path) in
    let body := PyStr.join "/" comps in
    let path' := String.concat "" (replicate initial_slashes "/") +:+ body in
    if bool_decide (path' = "") then "." else path'.

(** [os.path.abspath(path)] in the working directory [cwd]. *)
Definition abspath (cwd path : string) : string :=
  if isabs path then normpath path else normpath (join cwd path).


(** [os.path.basename(path)]: what follows the last slash. *)
Definition basename (path : string) : string :=
  default "" (last (PyStr.split_on "/" path)).

End PosixPath.

Example split_ex : PyStr.split " >  10	mb " = [">"; "10"; "mb"].
Proof. reflexivity. Qed.
Example lower_ex : PyStr.lower "KiB" = "kib".
Proof. reflexivity. Qed.
Example to_int_ex : PyStr.to_int "-1_000" = Some (-1000)%Z /\ PyStr.to_int "1__0" = None.
Proof. split; reflexivity. Qed.
Example join_ex :
PosixPath.join "foo" "foo" = "foo/foo" /\ PosixPath.join "/r/" "/r/" = "/r/"
/\ PosixPath.join "/r" "a" = "/r/a".
Proof. repeat split; reflexivity. Qed.
Example abspath_ex :
PosixPath.abspath "/cwd" "/tmp/foo/" = "/tmp/foo"
/\ PosixPath.abspath "/cwd" "foo" = "/cwd/foo"
/\ PosixPath.abspath "/cwd" "../a/./b//c/.." = "/a/b"
/\ PosixPath.abspath "/cwd" "." = "/cwd".
Proof. repeat split; reflexivity. Qed.

(** ** Python values and exceptions *)

(** The hashable values a YAML document yields: these are the dict keys
    and the bare tags. *)
Inductive Scalar :=
| SNone
| SBool (b : bool)
| SInt (z : Z)
| SFloat (f : float)
| SStr (s : string).

(** Generic parsed data: scalars, lists, and dicts in insertion order. *)
Inductive Data :=
| DScalar (s : Scalar)
| DList (l : list Data)
| DDict (items : list (Scalar * Data)).

Inductive Exn :=
| ConditionError (msg : string)
| ActionError (msg : string)
| TypeError
| ValueError
| KeyError
| IndexError
| AttributeError
| OverflowError
| ReError
| OSError (errno : string)
| OtherError (what : string).

(** Results of code that may raise but touches no state. *)
Inductive res (A : Type) :=
| Ok (a : A)
| Fail (e : Exn).
Arguments Ok {A} a.
Arguments Fail {A} e.

Definition res_bind {A B} (r : res A) (k : A -> res B) : res B :=
  match r with Ok a => k a | Fail e => Fail e end.

Notation "'let?' x := e 'in' k" := (res_bind e (fun x => k))
  (at level 10, x pattern, e at level 100, k at level 200).

(** [[f(i, x) for i, x in enumerate(l, i0)]]: the first failure ends it. *)
Definition res_imap {A B} (f : nat -> A -> res B) : nat -> list A -> res (list B) :=
  fix go i l :=
    match l with
    | [] => Ok []
    | x :: l' => let? y := f i x in let? ys := go (S i) l' in Ok (y :: ys)
    end.

Definition res_map {A B} (f : A -> res B) : list A -> res (list B) :=
  res_imap (fun _ => f) 0%nat.

Definition of_option {A} (e : Exn) (o : option A) : res A :=
  match o with Some a => Ok a | None => Fail e end.

Module Py.

(** [bool(x)]. *)
Definition truthy (d : Data) : bool :=
  match d with
  | DScalar SNone => false
  | DScalar (SBool b) => b
  | DScalar (SInt z) => negb (z =? 0)%Z
  | DScalar (SFloat f) => negb (PrimFloat.eqb f 0%float)
  | DScalar (SStr s) => negb (bool_decide (s = ""))
  | DList l => negb (bool_decide (length l = 0%nat))
  | DDict d => negb (bool_decide (length d = 0%nat))
  end.

(** [x or y] where [x] is an optional string ([None] is falsy, and so is
    the empty string). *)
Definition or_ (x : option string) (y : string) : string :=
  match x with
  | Some s => if bool_decide (s = "") then y else s
  | None => y
  end.

(** The value of a non-negative integer below 2^53 as a float (exact). *)
Definition float_of_Z (z : Z) : float := PrimFloat.of_uint63 (Uint63.of_Z z).

(** The order of an integer and a float, compared exactly as Python's
    mixed comparison does; [None] when the float is a NaN. *)
Definition cmp_int_float (n : Z) (f : float) : option comparison :=
  match Prim2SF f with
  | S754_nan => None
  | S754_zero _ => Some (n ?= 0)%Z
  | S754_infinity neg => Some (if neg then Gt else Lt)
  | S754_finite neg m e =>
      let v := if neg then Z.neg m else Z.pos m in
      if (0 <=? e)%Z then Some (n ?= v * 2 ^ e)%Z
      else Some (n * 2 ^ (- e) ?= v)%Z
  end.

End Py.

(** The five comparison operators of [COMPARATORS]. *)
Inductive Comparator := OpGt | OpGe | OpEq | OpLe | OpLt.

Definition compare_by (op : Comparator) (c : option comparison) : bool :=
  match op, c with
  | OpGt, Some Gt => true
  | OpGe, Some (Gt | Eq) => true
  | OpEq, Some Eq => true
  | OpLe, Some (Lt | Eq) => true
  | OpLt, Some Lt => true
  | _, _ => false
  end.

(** [COMPARATORS]: the table of both [AgeCondition] and [SizeCondition]. *)
Definition COMPARATORS : gmap string Comparator :=
  list_to_map [(">", OpGt); (">=", OpGe); ("=", OpEq); ("<=", OpLe); ("<", OpLt)].

(** ** The environment *)

(** A compiled pattern: the pattern text and whether [re.IGNORECASE] is set. *)
Record Regex := { pattern : string; ignore_case : bool }.

(** The libraries the program calls and that are not modelled here. *)
Record Platform := {
  (** [re.compile] accepts the pattern *)
  re_valid : string -> bool -> bool;
  (** [regex.match(s)] is not [None] *)
  re_match : Regex -> string -> bool;
  (** [magic.from_buffer(buffer, mime=True)] *)
  magic_from_buffer : list Byte.byte -> res string;
  (** [float(s)] for the literals [Py.float_of_Z] does not cover *)
  float_of_str : string -> option float;
  (** [str(f)] of a float *)
  float_str : float -> string;
  (** [os.path.expanduser] *)
  expanduser : string -> string;
  (** [os.getcwd()] *)
  getcwd : string;
  (** [yaml.load] of a file's content *)
  yaml_load : list Byte.byte -> res Data;
  (** [datetime.fromtimestamp(t)], in microseconds *)
  fromtimestamp : float -> res Z;
}.

(** [os.stat_result], as far as the program reads it. *)
Record Stat := { st_size : Z; st_mtime : float }.

(** The file system.  An operation that fails returns the exception it
    raises.  [walk_scandir] is the directory listing [os.walk] takes, split
    into directory names and other names; [None] when the listing fails,
    which [os.walk] ignores. *)
Class FileSystem (FS : Type) := {
  os_path_isfile : string -> FS -> bool;
  os_path_isdir : string -> FS -> bool;
  os_path_islink : string -> FS -> bool;
  os_stat : string -> FS -> res Stat;
  (** [open(path, 'rb')] followed by [file.read(n)] *)
  open_read : string -> Data -> FS -> res (list Byte.byte);
  walk_scandir : string -> FS -> option (list string * list string);
  (** [os.makedirs(path, exist_ok=True)] *)
  os_makedirs : string -> FS -> res FS;
  (** [shutil.move(src, dst)] with the path it returns *)
  shutil_move : string -> string -> FS -> res (option string * FS);
  shutil_copy2 : string -> string -> FS -> res FS;
  os_remove : string -> FS -> res FS;
}.

(** The file-system and libmagic calls the program issues, in order. *)
Inductive Call :=
| CallIsFile (path : string)
| CallIsDir (path : string)
| CallStat (path : string)
| CallOpenRead (path : string)
| CallMagic (buffer : list Byte.byte)
| CallMakedirs (path : string)
| CallMove (src dst : string)
| CallCopy2 (src dst : string)
| CallRemove (path : string).

Definition mutating (c : Call) : bool :=
  match c with
  | CallMakedirs _ | CallMove _ _ | CallCopy2 _ _ | CallRemove _ => true
  | _ => false
  end.

(** Identity of a condition object: where its declaration stands in the
    rule file (rule index, then child indices). *)
Definition ObjId := list nat.

Section Engine.

Context {FS : Type} `{FileSystem FS} (P : Platform).

(** What a run can change or read: the file system, the cache of
    [MimeCondition.match] (one [lru_cache] for the class, keyed by object
    and path), both output streams, the clock read by [datetime.now()]
    (microseconds) and the log of calls. *)
Record World := {
  fs : FS;
  mime_cache : gmap (ObjId * string) bool;
  stdout : list string;
  stderr : list string;
  now : Z;
  calls : list Call;
}.

Inductive Outcome (A : Type) :=
| Returned (a : A) (w : World)
| Raised (e : Exn) (w : World).
Arguments Returned {A} a w.
Arguments Raised {A} e w.

Definition M (A : Type) := World -> Outcome A.

Definition ret {A} (a : A) : M A := fun w => Returned a w.
Definition raise {A} (e : Exn) : M A := fun w => Raised e w.
Definition bind {A B} (m : M A) (k : A -> M B) : M B :=
  fun w => match m w with Returned a w' => k a w' | Raised e w' => Raised e w' end.

Definition world_of {A} (o : Outcome A) : World :=
  match o with Returned _ w => w | Raised _ w => w end.

Definition lift_res {A} (r : res A) : M A :=
  match r with Ok a => ret a | Fail e => raise e end.

Definition with_fs (f : FS) (w : World) : World :=
  {| fs := f; mime_cache := mime_cache w; stdout := stdout w;
     stderr := stderr w; now := now w; calls := calls w |}.

Definition with_cache (c : gmap (ObjId * string) bool) (w : World) : World :=
  {| fs := fs w; mime_cache := c; stdout := stdout w;
     stderr := stderr w; now := now w; calls := calls w |}.

Definition with_stdout (s : list string) (w : World) : World :=
  {| fs := fs w; mime_cache := mime_cache w; stdout := s;
     stderr := stderr w; now := now w; calls := calls w |}.

Definition with_stderr (s : list string) (w : World) : World :=
  {| fs := fs w; mime_cache := mime_cache w; stdout := stdout w;
     stderr := s; now := now w; calls := calls w |}.

Definition with_calls (l : list Call) (w : World) : World :=
  {| fs := fs w; mime_cache := mime_cache w; stdout := stdout w;
     stderr := stderr w; now := now w; calls := l |}.

Definition log (c : Call) : M unit :=
  fun w => Returned tt (with_calls (calls w ++ [c]) w).

Definition set_fs (f : FS) : M unit :=
  fun w => Returned tt (with_fs f w).

Definition cache_put (k : ObjId * string) (b : bool) : M unit :=
  fun w => Returned tt (with_cache (<[k := b]> (mime_cache w)) w).

Definition print (line : string) : M unit :=
  fun w => Returned tt (with_stdout (stdout w ++ [line]) w).

Definition print_err (line : string) : M unit :=
  fun w => Returned tt (with_stderr (stderr w ++ [line]) w).

(** A read-only file-system call. *)
Definition query {A} (c : Call) (f : FS -> A) : M A :=
  bind (log c) (fun _ w => Returned (f (fs w)) w).

(** A read-only file-system call that may fail. *)
Definition query_res {A} (c : Call) (f : FS -> res A) : M A :=
  bind (log c) (fun _ w =>
    match f (fs w) with Ok a => Returned a w | Fail e => Raised e w end).

(** A file-system call that may fail and may change the file system; what
    it returns, if anything, is [r]. *)
Definition effect_with {A} (c : Call) (f : FS -> res (A * FS)) : M A :=
  bind (log c) (fun _ w =>
    match f (fs w) with
    | Ok (a, f') => bind (set_fs f') (fun _ => ret a) w
    | Fail e => Raised e w
    end).

Definition effect (c : Call) (f : FS -> res FS) : M unit :=
  effect_with c (fun x => let? f' := f x in Ok (tt, f')).

Notation "'let*' x := e 'in' k" := (bind e (fun x => k))
  (at level 10, x pattern, e at level 100, k at level 200).

(** ** Conditions *)

(** A condition object.  The two lambdas of [parse_age_condition] and
    [parse_size_condition] are kept as what they close over: the comparison
    and the threshold. *)
Inductive Condition :=
| AllCondition (conditions : list Condition)
| AnyCondition (conditions : list Condition)
| NotCondition (condition : Condition)
| PathCondition (regex : Regex)
| MimeCondition (self : ObjId) (regex : Regex) (magic_bytes : Data)
| AgeCondition (condition_string : string) (compare : Comparator) (time_delta : Z)
| SizeCondition (size_string : string) (compare : Comparator) (size : float).

(** [all(f(x) for x in l)]: stops at the first false. *)
Definition py_all {A} (f : A -> M bool) : list A -> M bool :=
  fix go l :=
    match l with
    | [] => ret true
    | x :: l' => let* b := f x in if b then go l' else ret false
    end.

(** [any(f(x) for x in l)]: stops at the first true. *)
Definition py_any {A} (f : A -> M bool) : list A -> M bool :=
  fix go l :=
    match l with
    | [] => ret false
    | x :: l' => let* b := f x in if b then ret true else go l'
    end.

(** [MimeCondition.match] below its [lru_cache]. *)
Definition mime_match_uncached (regex : Regex) (magic_bytes : Data)
    (path : string) : M bool :=
  let* is_file := query (CallIsFile path) (os_path_isfile path) in
  if negb is_file then ret false
  else
    let* buffer := query_res (CallOpenRead path) (open_read path magic_bytes) in
    let* _ := log (CallMagic buffer) in
    let* mime := lift_res (magic_from_buffer P buffer) in
    ret (re_match P regex mime).

(** [functools.lru_cache(None)] around a method: a hit returns the stored
    value without running the body; a miss runs it and stores the value it
    returns (nothing is stored when it raises). *)
Definition lru_cache (key : ObjId * string) (body : M bool) : M bool :=
  fun w =>
    match mime_cache w !! key with
    | Some b => Returned b w
    | None => (let* b := body in let* _ := cache_put key b in ret b) w
    end.

(** [datetime.now() - other], compared with the time delta. *)
Definition age_predicate (compare : Comparator) (time_delta : Z) (other : Z) : M bool :=
  fun w => Returned (compare_by compare (Some ((now w - other) ?= time_delta)%Z)) w.

Definition size_predicate (compare : Comparator) (size : float) (other : Z) : bool :=
  compare_by compare (Py.cmp_int_float other size).

(** [condition.match(path)], for each class. *)
Fixpoint cond_match (c : Condition) (path : string) {struct c} : M bool :=
  match c with
  | AllCondition conditions => py_all (fun c' => cond_match c' path) conditions
  | AnyCondition conditions => py_any (fun c' => cond_match c' path) conditions
  | NotCondition condition => let* b := cond_match condition path in ret (negb b)
  | PathCondition regex => ret (re_match P regex path)
  | MimeCondition self regex magic_bytes =>
      lru_cache (self, path) (mime_match_uncached regex magic_bytes path)
  | AgeCondition _ compare time_delta =>
      let* stat := query_res (CallStat path) (os_stat path) in
      let* date_time := lift_res (fromtimestamp P (st_mtime stat)) in
      age_predicate compare time_delta date_time
  | SizeCondition _ compare size =>
      let* stat := query_res (CallStat path) (os_stat path) in
      ret (size_predicate compare size (st_size stat))
  end.

(** ** Actions *)

Inductive Action :=
| MoveAction (destination : string)
| CopyAction (destination : string)
| DeleteAction.

(** The [ignore_paths] attribute an action's [__init__] leaves. *)
Definition action_ignore_paths (a : Action) : gset string :=
  match a with
  | MoveAction destination => {[ destination ]}
  | CopyAction destination => {[ destination ]}
  | DeleteAction => ∅
  end.

(** [action.apply(path)]: the value returned is [None] for the methods
    that end without a [return]. *)
Definition action_apply (a : Action) (path : string) : M (option string) :=
  match a with
  | MoveAction destination =>
      let* _ := effect (CallMakedirs destination) (os_makedirs destination) in
      effect_with (CallMove path destination) (shutil_move path destination)
  | CopyAction destination =>
      let* _ := effect (CallMakedirs destination) (os_makedirs destination) in
      let* _ := effect (CallCopy2 path destination) (shutil_copy2 path destination) in
      ret None
  | DeleteAction =>
      let* _ := effect (CallRemove path) (os_remove path) in
      ret None
  end.

(** ** Rules *)

Record Rule := {
  name : Scalar;
  condition : Condition;
  actions : list Action;
  ignore_paths : gset string;
}.

(** [Rule.__init__]. *)
Definition Rule_init (name : Scalar) (condition : Condition)
    (actions : list Action) : Rule :=
  {| name := name; condition := condition; actions := actions;
     ignore_paths := ⋃ (action_ignore_paths <$> actions) |}.

Definition Rule_match (r : Rule) (path : string) : M bool :=
  cond_match (condition r) path.

(** [Rule.apply]: [for action in self.actions: path = action.apply(path) or path]. *)
Fixpoint apply_actions (l : list Action) (path : string) : M string :=
  match l with
  | [] => ret path
  | action :: l' =>
      let* r := action_apply action path in
      apply_actions l' (Py.or_ r path)
  end.

Definition Rule_apply (r : Rule) (path : string) : M string :=
  apply_actions (actions r) path.

(** ** Construction from declarative data *)

Inductive TermClass := ClsAll | ClsAny.
Inductive LeafClass := ClsPath | ClsMime | ClsAge | ClsSize.
Inductive ConditionClass :=
| ClsTerm (k : TermClass)
| ClsNot
| ClsLeaf (k : LeafClass).
Inductive ActionClass := ClsMove | ClsCopy | ClsDelete.

Definition CONDITIONS : gmap string ConditionClass :=
  list_to_map
    [("all", ClsTerm ClsAll); ("any", ClsTerm ClsAny); ("not", ClsNot);
     ("path", ClsLeaf ClsPath); ("mime", ClsLeaf ClsMime);
     ("age", ClsLeaf ClsAge); ("size", ClsLeaf ClsSize)].

Definition ACTIONS : gmap string ActionClass :=
  list_to_map [("move", ClsMove); ("copy", ClsCopy); ("delete", ClsDelete)].

(** [SizeCondition.UNITS]. *)
Definition UNITS : gmap string Z :=
  list_to_map
    [("b", 1); ("kb", 1024); ("mb", 1024 ^ 2); ("gb", 1024 ^ 3); ("tb", 1024 ^ 4);
     ("kib", 1000); ("mib", 1000 ^ 2); ("gib", 1000 ^ 3); ("tib", 1000 ^ 4)]%Z.

(** The keyword parameters of [datetime.timedelta], in microseconds. *)
Definition TIMEDELTA_UNITS : gmap string Z :=
  list_to_map
    [("days", 86400000000); ("seconds", 1000000); ("microseconds", 1);
     ("milliseconds", 1000); ("minutes", 60000000); ("hours", 3600000000);
     ("weeks", 604800000000)]%Z.

(** [str(x)], as an f-string formats a tag or a rule name. *)
Definition py_str (x : Scalar) : string :=
  match x with
  | SNone => "None"
  | SBool true => "True"
  | SBool false => "False"
  | SInt z => pretty z
  | SFloat f => float_str P f
  | SStr s => s
  end.

(** [table.get(type_)] for a hashable [type_]: only a string can equal a
    key of these tables. *)
Definition table_get {C} (table : gmap string C) (type_ : Scalar) : option C :=
  match type_ with
  | SStr s => table !! s
  | _ => None
  end.

(** The arguments of a constructor call: a dict is passed as keyword
    arguments, a list as positional arguments, anything else as the one
    argument. *)
Inductive Args :=
| Keywords (kw : list (Scalar * Data))
| Positional (pos : list Data).

Definition call_args (data : Data) : Args :=
  match data with
  | DDict kw => Keywords kw
  | DList pos => Positional pos
  | DScalar _ => Positional [data]
  end.

Definition is_key (k : Scalar) (n : string) : bool :=
  match k with SStr s => bool_decide (s = n) | _ => false end.

(** [data[n]] of a dict, [None] when the key is absent. *)
Definition dict_get (items : list (Scalar * Data)) (n : string) : option Data :=
  snd <$> find (fun kv => is_key (fst kv) n) items.

Fixpoint bind_positional (sig : list (string * option Data)) (pos : list Data)
    : option (list Data) :=
  match sig, pos with
  | [], [] => Some []
  | [], _ :: _ => None
  | (_, dflt) :: sig', [] =>
      match dflt, bind_positional sig' [] with
      | Some d, Some rest => Some (d :: rest)
      | _, _ => None
      end
  | _ :: sig', x :: pos' => cons x <$> bind_positional sig' pos'
  end.

Fixpoint bind_keywords (sig : list (string * option Data)) (kw : list (Scalar * Data))
    : option (list Data) :=
  match sig with
  | [] => Some []
  | (n, dflt) :: sig' =>
      match (match dict_get kw n with Some v => Some v | None => dflt end),
            bind_keywords sig' kw with
      | Some v, Some rest => Some (v :: rest)
      | _, _ => None
      end
  end.

(** Binding the arguments of a call to a parameter list ([name], default);
    [TypeError] on a missing, surplus, unknown or non-string argument. *)
Definition bind_args (sig : list (string * option Data)) (a : Args) : res (list Data) :=
  of_option TypeError
    match a with
    | Positional pos => bind_positional sig pos
    | Keywords kw =>
        if forallb (fun kv => existsb (fun p => is_key (fst kv) (fst p)) sig) kw
        then bind_keywords sig kw else None
    end.

(** [re.compile(regex, flags)]. *)
Definition re_compile (regex : Data) (ic : bool) : res Regex :=
  match regex with
  | DScalar (SStr s) =>
      if re_valid P s ic then Ok {| pattern := s; ignore_case := ic |} else Fail ReError
  | _ => Fail TypeError
  end.

(** [condition_string.split()] unpacked into three names. *)
Definition split3 (condition_string : Data) : res (string * string * string) :=
  match condition_string with
  | DScalar (SStr s) =>
      match PyStr.split s with
      | [a; b; c] => Ok (a, b, c)
      | _ => Fail ValueError
      end
  | _ => Fail AttributeError
  end.

(** [float(s)]. *)
Definition py_float (s : string) : option float :=
  match PyStr.digits 0 false s with
  | Some n => if (n <? 2 ^ 53)%Z then Some (Py.float_of_Z n) else float_of_str P s
  | None => float_of_str P s
  end.

(** [timedelta] called with the one keyword [unit], in microseconds. *)
Definition timedelta (unit : string) (n : Z) : res Z :=
  match TIMEDELTA_UNITS !! unit with
  | None => Fail TypeError
  | Some us =>
      let total := (n * us)%Z in
      if (Z.abs (total / 86400000000) <=? 999999999)%Z then Ok total
      else Fail OverflowError
  end.

Definition parse_age_condition (condition_string : Data) : res (Comparator * Z) :=
  let? (comparator_string, size_string, unit_string) := split3 condition_string in
  let? compare := of_option KeyError (COMPARATORS !! comparator_string) in
  let? n := of_option ValueError (PyStr.to_int size_string) in
  let? time_delta := timedelta (PyStr.lower unit_string) n in
  Ok (compare, time_delta).

Definition parse_size_condition (condition_string : Data) : res (Comparator * float) :=
  let? (comparator_string, size_string, unit_string) := split3 condition_string in
  let? unit := of_option KeyError (UNITS !! PyStr.lower unit_string) in
  let? magnitude := of_option ValueError (py_float size_string) in
  let size := PrimFloat.mul (Py.float_of_Z unit) magnitude in
  let? compare := of_option KeyError (COMPARATORS !! comparator_string) in
  Ok (compare, size).

Definition string_of (d : Data) : string :=
  match d with DScalar (SStr s) => s | _ => "" end.

(** The [__init__] of the four leaf classes, after argument binding. *)
Definition make_leaf (self : ObjId) (k : LeafClass) (a : Args) : res Condition :=
  match k with
  | ClsPath =>
      let? bound := bind_args [("regex", None)] a in
      match bound with
      | [regex] => let? r := re_compile regex false in Ok (PathCondition r)
      | _ => Fail TypeError
      end
  | ClsMime =>
      let? bound := bind_args [("regex", None);
                               ("ignore_case", Some (DScalar (SBool true)));
                               ("magic_bytes", Some (DScalar (SInt 1024)))] a in
      match bound with
      | [regex; ic; magic_bytes] =>
          let? r := re_compile regex (Py.truthy ic) in Ok (MimeCondition self r magic_bytes)
      | _ => Fail TypeError
      end
  | ClsAge =>
      let? bound := bind_args [("condition_string", None)] a in
      match bound with
      | [condition_string] =>
          let? (compare, time_delta) := parse_age_condition condition_string in
          Ok (AgeCondition (string_of condition_string) compare time_delta)
      | _ => Fail TypeError
      end
  | ClsSize =>
      let? bound := bind_args [("size", None)] a in
      match bound with
      | [size] =>
          let? (compare, threshold) := parse_size_condition size in
          Ok (SizeCondition (string_of size) compare threshold)
      | _ => Fail TypeError
      end
  end.

Definition term (k : TermClass) (conditions : list Condition) : Condition :=
  match k with
  | ClsAll => AllCondition conditions
  | ClsAny => AnyCondition conditions
  end.

Definition unknown_type (type_ : Scalar) : string := "unknown type: " +:+ py_str type_.

(** [make_condition(data)], building the object with identity [self].
    [BaseTermCondition.__init__] takes any number of positional arguments
    and builds one child per datum; [NotCondition.__init__] takes [condition_datum]. *)
Fixpoint make_condition (self : ObjId) (data : Data) {struct data} : res Condition :=
  let children := res_imap (fun i d => make_condition (self ++ [i]) d) in
  match data with
  | DDict [] => Fail IndexError
  | DDict ((type_, args) :: _) =>
      match table_get CONDITIONS type_ with
      | None => Fail (ConditionError (unknown_type type_))
      | Some (ClsTerm k) =>
          match args with
          | DDict [] => Ok (term k [])
          | DDict (_ :: _) => Fail TypeError
          | DList l => let? cs := children 0%nat l in Ok (term k cs)
          | DScalar _ =>
              let? c := make_condition (self ++ [0%nat]) args in Ok (term k [c])
          end
      | Some ClsNot =>
          match args with
          | DDict [(k, d)] =>
              if is_key k "condition_datum"
              then let? c := make_condition (self ++ [0%nat]) d in Ok (NotCondition c)
              else Fail TypeError
          | DDict _ => Fail TypeError
          | DList [d] =>
              let? c := make_condition (self ++ [0%nat]) d in Ok (NotCondition c)
          | DList _ => Fail TypeError
          | DScalar _ =>
              let? c := make_condition (self ++ [0%nat]) args in Ok (NotCondition c)
          end
      | Some (ClsLeaf k) => make_leaf self k (call_args args)
      end
  | DList _ => Fail TypeError
  | DScalar type_ =>
      match table_get CONDITIONS type_ with
      | None => Fail (ConditionError (unknown_type type_))
      | Some (ClsTerm k) => Ok (term k [])
      | Some ClsNot => Fail TypeError
      | Some (ClsLeaf k) => make_leaf self k (Positional [])
      end
  end.

(** The [__init__] of the three action classes, after argument binding. *)
Definition make_action_of (k : ActionClass) (a : Args) : res Action :=
  match k with
  | ClsMove | ClsCopy =>
      let? bound := bind_args [("destination", None)] a in
      match bound with
      | [DScalar (SStr destination)] =>
          Ok (match k with
              | ClsCopy => CopyAction (expanduser P destination)
              | _ => MoveAction (expanduser P destination)
              end)
      | _ => Fail TypeError
      end
  | ClsDelete =>
      let? _ := bind_args [] a in Ok DeleteAction
  end.

(** One turn of the loop of [make_actions]. *)
Definition make_action (datum : Data) : res Action :=
  let construct (type_ : Scalar) (a : Args) :=
    match table_get ACTIONS type_ with
    | None => Fail (ActionError (unknown_type type_))
    | Some k => make_action_of k a
    end in
  match datum with
  | DDict [] => Fail IndexError
  | DDict ((type_, args) :: _) => construct type_ (call_args args)
  | DList _ => Fail TypeError
  | DScalar type_ => construct type_ (Positional [])
  end.

Fixpoint chars (s : string) : list Data :=
  match s with
  | "" => []
  | String a s' => DScalar (SStr (String a "")) :: chars s'
  end.

(** What [for x in data] goes through: the items of a list, the keys of a
    dict, the characters of a string; [TypeError] otherwise. *)
Definition py_iter (data : Data) : res (list Data) :=
  match data with
  | DList l => Ok l
  | DDict items => Ok ((fun kv => DScalar (fst kv)) <$> items)
  | DScalar (SStr s) => Ok (chars s)
  | DScalar _ => Fail TypeError
  end.

Definition make_actions (data : Data) : res (list Action) :=
  let? l := py_iter data in res_map make_action l.

(** [list(data.items())[0]]. *)
Definition first_item (data : Data) : res (Scalar * Data) :=
  match data with
  | DDict [] => Fail IndexError
  | DDict (kv :: _) => Ok kv
  | _ => Fail AttributeError
  end.

(** [data[key]] for a string key. *)
Definition subscript (data : Data) (key : string) : res Data :=
  match data with
  | DDict items => of_option KeyError (dict_get items key)
  | _ => Fail TypeError
  end.

(** [make_rule(data)] for the declaration at position [i]. *)
Definition make_rule (i : nat) (data : Data) : res Rule :=
  let? (name, body) := first_item data in
  let? c := subscript body "condition" in
  let? condition := make_condition [i] c in
  let? a := subscript body "actions" in
  let? actions := make_actions a in
  Ok (Rule_init name condition actions).

(** The list comprehension of [load_rules]. *)
Definition make_rules (config : Data) : res (list Rule) :=
  let? l := py_iter config in res_imap make_rule 0%nat l.

Definition load_rules (path : string) : M (list Rule) :=
  let* content := query_res (CallOpenRead path) (open_read path (DScalar SNone)) in
  let* config := lift_res (yaml_load P content) in
  lift_res (make_rules config).

(** ** Enumerating candidate paths *)

(** [os.walk(top, followlinks=...)], top-down, as a generator: [start] is the
    directory to list first, [frames] the directories listed so far with
    the subdirectory names still to visit, innermost first. *)
Record Walker := {
  start : option string;
  frames : list (string * list string);
}.

Definition Triple : Type := string * list string * list string.

Section Walk.

Variables (followlinks : bool) (f : FS).

Fixpoint walk_frames (frames : list (string * list string)) : option (Triple * Walker) :=
  match frames with
  | [] => None
  | (top, dirs) :: rest =>
      (fix go (dirs : list string) : option (Triple * Walker) :=
         match dirs with
         | [] => walk_frames rest
         | dirname :: dirs' =>
             let new_path := PosixPath.join top dirname in
             if followlinks || negb (os_path_islink new_path f) then
               match walk_scandir new_path f with
               | Some (ds, nondirs) =>
                   Some ((new_path, ds, nondirs),
                         {| start := None;
                            frames := (new_path, ds) :: (top, dirs') :: rest |})
               | None => go dirs'
               end
             else go dirs'
         end) dirs
  end.

(** [next(walker)]: the next triple, or [None] when the walk is over. *)
Definition walk_next (w : Walker) : option (Triple * Walker) :=
  match start w with
  | Some top =>
      match walk_scandir top f with
      | Some (ds, nondirs) =>
          Some ((top, ds, nondirs), {| start := None; frames := [(top, ds)] |})
      | None => None
      end
  | None => walk_frames (frames w)
  end.

End Walk.

(** The generator [find_paths]: [current] is the root and the names left
    in the inner loop; [walker] the walk it draws from. *)
Record PathGen := {
  predicate : string -> bool;
  recursive : bool;
  follow_symlinks : bool;
  current : option (string * list string);
  walker : Walker;
}.

Definition find_paths (path : string) (predicate : string -> bool)
    (recursive follow_symlinks : bool) : PathGen :=
  {| predicate := predicate; recursive := recursive;
     follow_symlinks := follow_symlinks; current := None;
     walker := {| start := Some path; frames := [] |} |}.

Inductive Step :=
| Yield (path : string) (g : PathGen)
| Skip (g : PathGen)
| Stop.

Definition with_current (g : PathGen) (c : option (string * list string)) : PathGen :=
  {| predicate := predicate g; recursive := recursive g;
     follow_symlinks := follow_symlinks g; current := c; walker := walker g |}.

(** One turn of the loops of [find_paths]. *)
Definition find_paths_step (g : PathGen) (f : FS) : Step :=
  match current g with
  | Some (root, name :: names) =>
      let path := PosixPath.join root name in
      let g' := with_current g (Some (root, names)) in
      if predicate g path then Yield path g' else Skip g'
  | Some (root, []) =>
      if negb (recursive g) then Stop else Skip (with_current g None)
  | None =>
      match walk_next (follow_symlinks g) f (walker g) with
      | None => Stop
      | Some ((root, directories, file_names), wk) =>
          Skip {| predicate := predicate g; recursive := recursive g;
                  follow_symlinks := follow_symlinks g;
                  current := Some (root, directories ++ file_names ++ [root]);
                  walker := wk |}
      end
  end.

(** All the paths the generator yields while the file system stays as it
    is; [None] when [fuel] turns do not exhaust it. *)
Fixpoint paths_of (fuel : nat) (g : PathGen) (f : FS) : option (list string) :=
  match fuel with
  | O => None
  | S fuel' =>
      match find_paths_step g f with
      | Stop => Some []
      | Skip g' => paths_of fuel' g' f
      | Yield path g' => cons path <$> paths_of fuel' g' f
      end
  end.

(** ** The main loop *)

Record Namespace := {
  ns_rules : string;
  ns_path : string;
  ns_dry_run : bool;
  ns_recursive : bool;
  ns_follow_symlinks : bool;
}.

Definition SUCCESS_EXIT_STATUS : Z := 0.
Definition FAILURE_EXIT_STATUS : Z := 1.

(** The loop [for rule in rules] of [main] for one candidate path: in a dry
    run a match is printed and the loop goes on ([continue]); otherwise the
    rule is applied and the loop ends ([break]). *)
Fixpoint run_rules (dry_run : bool) (rules : list Rule) (path : string) : M unit :=
  match rules with
  | [] => ret tt
  | rule :: rules' =>
      let* matched := Rule_match rule path in
      if matched then
        if dry_run then
          let* _ := print (py_str (name rule) +:+ ": " +:+ path) in
          run_rules dry_run rules' path
        else
          let* _ := Rule_apply rule path in
          ret tt
      else run_rules dry_run rules' path
  end.

(** One candidate of the outer loop, with the filter of the generator
    expression [path for path in paths if path not in ignore_paths]. *)
Definition process_path (dry_run : bool) (ignore : gset string)
    (rules : list Rule) (path : string) : M unit :=
  if bool_decide (path ∈ ignore) then ret tt else run_rules dry_run rules path.

Fixpoint main_loop (fuel : nat) (dry_run : bool) (ignore : gset string)
    (rules : list Rule) (paths : PathGen) (w : World) : option (Outcome unit) :=
  match fuel with
  | O => None
  | S fuel' =>
      match find_paths_step paths (fs w) with
      | Stop => Some (Returned tt w)
      | Skip paths' => main_loop fuel' dry_run ignore rules paths' w
      | Yield path paths' =>
          match process_path dry_run ignore rules path w with
          | Returned _ w' => main_loop fuel' dry_run ignore rules paths' w'
          | Raised e w' => Some (Raised e w')
          end
      end
  end.

(** The set [ignore_paths] of [main]. *)
Definition effective_ignore_paths (root : string) (rules : list Rule) : gset string :=
  {[ PosixPath.abspath (getcwd P) root ]} ∪ ⋃ (ignore_paths <$> rules).

(** [main] up to the loop: an exit status, or the rules. *)
Definition startup (arguments : Namespace) : M (Z + list Rule) :=
  let* is_file := query (CallIsFile (ns_rules arguments))
                    (os_path_isfile (ns_rules arguments)) in
  if negb is_file then
    let* _ := print_err ("No such file: " +:+ ns_rules arguments) in
    ret (inl FAILURE_EXIT_STATUS)
  else
    let* is_dir := query (CallIsDir (ns_path arguments))
                     (os_path_isdir (ns_path arguments)) in
    if negb is_dir then
      let* _ := print_err ("No such folder: " +:+ ns_path arguments) in
      ret (inl FAILURE_EXIT_STATUS)
    else
      let* rules := load_rules (ns_rules arguments) in
      ret (inr rules).

(** [main(arguments)]; [None] when [fuel] turns of the generator do not
    end the traversal. *)
Definition main (fuel : nat) (arguments : Namespace) (w : World) : option (Outcome Z) :=
  match startup arguments w with
  | Raised e w' => Some (Raised e w')
  | Returned (inl status) w' => Some (Returned status w')
  | Returned (inr rules) w' =>
      let paths := find_paths (ns_path arguments) (fun _ => true)
                     (ns_recursive arguments) (ns_follow_symlinks arguments) in
      let ignore := effective_ignore_paths (ns_path arguments) rules in
      match main_loop fuel (ns_dry_run arguments) ignore rules paths w' with
      | None => None
      | Some (Returned _ w'') => Some (Returned SUCCESS_EXIT_STATUS w'')
      | Some (Raised e w'') => Some (Raised e w'')
      end
  end.

(** * Properties of the engine *)

(** ** Worlds before and after *)

Definition quiet (l : list Call) : Prop := Forall (fun c => mutating c = false) l.

(** [w'] is [w] after reading only: the cache of [MimeCondition.match] may
    have grown and calls that change nothing on disk were logged. *)
Record observes (w w' : World) : Prop := {
  obs_fs : fs w' = fs w;
  obs_stdout : stdout w' = stdout w;
  obs_stderr : stderr w' = stderr w;
  obs_now : now w' = now w;
  obs_calls : exists l, calls w' = calls w ++ l /\ quiet l;
}.

Lemma observes_refl w : observes w w.
Proof.
  split; try reflexivity. exists []. split; [by rewrite app_nil_r | constructor].
Qed.

Lemma observes_trans w1 w2 w3 : observes w1 w2 -> observes w2 w3 -> observes w1 w3.
Proof.
  intros [A1 A2 A3 A4 (l1 & A5 & A6)] [B1 B2 B3 B4 (l2 & B5 & B6)].
  split; try congruence.
  exists (l1 ++ l2). split.
  - rewrite B5, A5. by rewrite app_assoc.
  - by apply Forall_app.
Qed.

(** A computation that only reads. *)
Definition reads {A} (m : M A) : Prop := forall w, observes w (world_of (m w)).

Lemma reads_ret {A} (a : A) : reads (ret a).
Proof. intros w. apply observes_refl. Qed.

Lemma reads_raise {A} e : reads (@raise A e).
Proof. intros w. apply observes_refl. Qed.

Lemma reads_bind {A B} (m : M A) (k : A -> M B) :
  reads m -> (forall a, reads (k a)) -> reads (bind m k).
Proof.
  intros Hm Hk w. unfold bind. specialize (Hm w).
  destruct (m w) as [a w1|e w1]; simpl in *; [|done].
  eapply observes_trans; [exact Hm | apply Hk].
Qed.

Lemma reads_lift_res {A} (r : res A) : reads (lift_res r).
Proof. destruct r; [apply reads_ret | apply reads_raise]. Qed.

Lemma reads_log c : mutating c = false -> reads (log c).
Proof.
  intros Hc w. split; try reflexivity.
  exists [c]. split; [done | by constructor].
Qed.

Lemma reads_query {A} c (f : FS -> A) : mutating c = false -> reads (query c f).
Proof.
  intros Hc. apply reads_bind; [by apply reads_log|].
  intros _ w. apply observes_refl.
Qed.

Lemma reads_query_res {A} c (f : FS -> res A) : mutating c = false -> reads (query_res c f).
Proof.
  intros Hc. apply reads_bind; [by apply reads_log|].
  intros _ w. destruct (f (fs w)); apply observes_refl.
Qed.

Lemma reads_cache_put k b : reads (cache_put k b).
Proof.
  intros w. split; try reflexivity. exists []. split; [by rewrite app_nil_r | constructor].
Qed.

Lemma reads_lru_cache key body : reads body -> reads (lru_cache key body).
Proof.
  intros Hb w. unfold lru_cache. destruct (mime_cache w !! key).
  - apply observes_refl.
  - apply reads_bind; [done|]. intros b.
    apply reads_bind; [apply reads_cache_put | intros _; apply reads_ret].
Qed.

Lemma reads_py_all {A} (f : A -> M bool) l :
  Forall (fun x => reads (f x)) l -> reads (py_all f l).
Proof.
  induction 1 as [|x l Hx _ IH]; simpl; [apply reads_ret|].
  apply reads_bind; [done|]. intros [|]; [done | apply reads_ret].
Qed.

Lemma reads_py_any {A} (f : A -> M bool) l :
  Forall (fun x => reads (f x)) l -> reads (py_any f l).
Proof.
  induction 1 as [|x l Hx _ IH]; simpl; [apply reads_ret|].
  apply reads_bind; [done|]. intros [|]; [apply reads_ret | done].
Qed.

(** Induction on conditions that reaches the children of [all] and [any]. *)
Lemma Condition_nested_ind (Q : Condition -> Prop) :
  (forall cs, Forall Q cs -> Q (AllCondition cs)) ->
  (forall cs, Forall Q cs -> Q (AnyCondition cs)) ->
  (forall c, Q c -> Q (NotCondition c)) ->
  (forall r, Q (PathCondition r)) ->
  (forall self r m, Q (MimeCondition self r m)) ->
  (forall s c t, Q (AgeCondition s c t)) ->
  (forall s c t, Q (SizeCondition s c t)) ->
  forall c, Q c.
Proof.
  intros HAll HAny HNot HPath HMime HAge HSize.
  fix IH 1. intros [cs|cs|c|r|self r m|s c t|s c t].
  - apply HAll. induction cs as [|c cs IHcs]; constructor; [apply IH | exact IHcs].
  - apply HAny. induction cs as [|c cs IHcs]; constructor; [apply IH | exact IHcs].
  - apply HNot, IH.
  - apply HPath.
  - apply HMime.
  - apply HAge.
  - apply HSize.
Qed.

Lemma reads_mime_match_uncached regex magic_bytes path :
  reads (mime_match_uncached regex magic_bytes path).
Proof.
  unfold mime_match_uncached.
  apply reads_bind; [by apply reads_query|]. intros [|]; simpl; [|apply reads_ret].
  apply reads_bind; [by apply reads_query_res|]. intros buffer.
  apply reads_bind; [by apply reads_log|]. intros _.
  apply reads_bind; [apply reads_lift_res | intros mime; apply reads_ret].
Qed.

(** Matching a condition changes nothing on disk and prints nothing. *)
Lemma reads_cond_match c path : reads (cond_match c path).
Proof.
  induction c as [cs IH|cs IH|c IH|r|self r m|s cmp t|s cmp t] using Condition_nested_ind;
    simpl.
  - by apply reads_py_all.
  - by apply reads_py_any.
  - apply reads_bind; [done | intros b; apply reads_ret].
  - apply reads_ret.
  - apply reads_lru_cache, reads_mime_match_uncached.
  - apply reads_bind; [by apply reads_query_res|]. intros st.
    apply reads_bind; [apply reads_lift_res|]. intros d w. apply observes_refl.
  - apply reads_bind; [by apply reads_query_res | intros st; apply reads_ret].
Qed.

(** ** Composite conditions *)

(** Calling [f] on every element of the list in order, each call returning
    [b]; the world a call leaves is the world the next one starts in. *)
Inductive run_each {A} (f : A -> M bool) (b : bool) : list A -> World -> World -> Prop :=
| run_each_nil w : run_each f b [] w w
| run_each_cons x l w w1 w2 :
    f x w = Returned b w1 -> run_each f b l w1 w2 -> run_each f b (x :: l) w w2.

Lemma bind_returned {A B} (m : M A) (k : A -> M B) w b w' :
  bind m k w = Returned b w' <-> exists a w1, m w = Returned a w1 /\ k a w1 = Returned b w'.
Proof.
  unfold bind. destruct (m w) as [a w1|e w1]; split.
  - intros Hk. by exists a, w1.
  - by intros (a' & w1' & [= -> ->] & Hk).
  - done.
  - by intros (a' & w1' & [=] & _).
Qed.

Lemma py_all_true {A} (f : A -> M bool) l w w' :
  py_all f l w = Returned true w' <-> run_each f true l w w'.
Proof.
  revert w. induction l as [|x l IH]; intros w; simpl.
  - split; [intros [= ->]; constructor | by inversion 1].
  - rewrite bind_returned. split.
    + intros ([|] & w1 & Hx & Hk); [|done].
      econstructor; [exact Hx | by apply IH].
    + inversion 1 as [|? ? ? w1 ? Hx Hl]; subst.
      exists true, w1. split; [done | by apply IH].
Qed.

Lemma py_all_false {A} (f : A -> M bool) l w w' :
  py_all f l w = Returned false w' <->
  exists pre x post w1,
    l = pre ++ x :: post /\ run_each f true pre w w1 /\ f x w1 = Returned false w'.
Proof.
  revert w. induction l as [|x l IH]; intros w; simpl.
  - split; [done | by intros ([|? ?] & ? & ? & ? & ? & _)].
  - rewrite bind_returned. split.
    + intros ([|] & w1 & Hx & Hk).
      * apply IH in Hk as (pre & y & post & w2 & -> & Hpre & Hy).
        exists (x :: pre), y, post, w2. split; [done|]. split; [|done].
        econstructor; eauto.
      * injection Hk as <-. exists [], x, l, w. repeat split; [constructor | done].
    + intros (pre & y & post & w2 & Heq & Hpre & Hy).
      destruct pre as [|x' pre]; simpl in Heq; injection Heq as -> ->.
      * inversion Hpre; subst. by exists false, w'.
      * inversion Hpre as [|? ? ? w1 ? Hx Hl]; subst.
        exists true, w1. split; [done|]. apply IH. by exists pre, y, post, w2.
Qed.

Lemma py_any_false {A} (f : A -> M bool) l w w' :
  py_any f l w = Returned false w' <-> run_each f false l w w'.
Proof.
  revert w. induction l as [|x l IH]; intros w; simpl.
  - split; [intros [= ->]; constructor | by inversion 1].
  - rewrite bind_returned. split.
    + intros ([|] & w1 & Hx & Hk); [done|].
      econstructor; [exact Hx | by apply IH].
    + inversion 1 as [|? ? ? w1 ? Hx Hl]; subst.
      exists false, w1. split; [done | by apply IH].
Qed.

Lemma py_any_true {A} (f : A -> M bool) l w w' :
  py_any f l w = Returned true w' <->
  exists pre x post w1,
    l = pre ++ x :: post /\ run_each f false pre w w1 /\ f x w1 = Returned true w'.
Proof.
  revert w. induction l as [|x l IH]; intros w; simpl.
  - split; [done | by intros ([|? ?] & ? & ? & ? & ? & _)].
  - rewrite bind_returned. split.
    + intros ([|] & w1 & Hx & Hk).
      * injection Hk as <-. exists [], x, l, w. repeat split; [constructor | done].
      * apply IH in Hk as (pre & y & post & w2 & -> & Hpre & Hy).
        exists (x :: pre), y, post, w2. split; [done|]. split; [|done].
        econstructor; eauto.
    + intros (pre & y & post & w2 & Heq & Hpre & Hy).
      destruct pre as [|x' pre]; simpl in Heq; injection Heq as -> ->.
      * inversion Hpre; subst. by exists true, w'.
      * inversion Hpre as [|? ? ? w1 ? Hx Hl]; subst.
        exists false, w1. split; [done|]. apply IH. by exists pre, y, post, w2.
Qed.

(** Every child condition of the list, in order, returns [b] on [path]. *)
Definition each_matches (b : bool) (path : string) : list Condition -> World -> World -> Prop :=
  run_each (fun c => cond_match c path) b.

(** C7.  [AllCondition.match] returns true exactly when every child, called
    in order, returns true, and false exactly when some child returns false
    after all the children before it returned true; whatever follows that
    child ([post]) is not called: the result and the world are those the
    child left.  [AnyCondition.match] is the dual, and [NotCondition.match]
    negates what its child returns. *)
Theorem composite_match (path : string) :
  (forall cs w w',
     cond_match (AllCondition cs) path w = Returned true w' <->
     each_matches true path cs w w')
  /\ (forall cs w w',
     cond_match (AllCondition cs) path w = Returned false w' <->
     exists pre c post w1,
       cs = pre ++ c :: post /\ each_matches true path pre w w1
       /\ cond_match c path w1 = Returned false w')
  /\ (forall cs w w',
     cond_match (AnyCondition cs) path w = Returned true w' <->
     exists pre c post w1,
       cs = pre ++ c :: post /\ each_matches false path pre w w1
       /\ cond_match c path w1 = Returned true w')
  /\ (forall cs w w',
     cond_match (AnyCondition cs) path w = Returned false w' <->
     each_matches false path cs w w')
  /\ (forall c w,
     cond_match (NotCondition c) path w =
     match cond_match c path w with
     | Returned b w' => Returned (negb b) w'
     | Raised e w' => Raised e w'
     end).
Proof.
  repeat split.
  - by intros ?%py_all_true.
  - by intros ?%py_all_true.
  - by intros ?%py_all_false.
  - by intros ?%py_all_false.
  - by intros ?%py_any_true.
  - by intros ?%py_any_true.
  - by intros ?%py_any_false.
  - by intros ?%py_any_false.
Qed.

(** ** The loop over the rules *)

(** Every rule of the list, asked in order, says [b] about [path]. *)
Definition each_rule (b : bool) (path : string) : list Rule -> World -> World -> Prop :=
  run_each (fun r => Rule_match r path) b.

Lemma run_rules_skip dry_run pre rest path w w1 :
  each_rule false path pre w w1 ->
  run_rules dry_run (pre ++ rest) path w = run_rules dry_run rest path w1.
Proof.
  induction 1 as [|r pre w w1 w2 Hr _ IH]; [done|].
  simpl. unfold bind at 1. by rewrite Hr.
Qed.

(** C1.  Outside a dry run, for a candidate that is not ignored: when the
    rules before [rule], asked in declaration order, do not match and [rule]
    matches, the run for this path is the application of [rule] alone, in
    the world its match left; the rules after it ([post]) are neither asked
    nor applied, whatever they are. *)
Theorem first_match_wins (ignore : gset string) (pre post : list Rule) (rule : Rule)
    (path : string) (w w1 w2 : World) :
  path ∉ ignore ->
  each_rule false path pre w w1 ->
  Rule_match rule path w1 = Returned true w2 ->
  process_path false ignore (pre ++ rule :: post) path w =
  match Rule_apply rule path w2 with
  | Returned _ w3 => Returned tt w3
  | Raised e w3 => Raised e w3
  end.
Proof.
  intros Hin Hpre Hrule. unfold process_path.
  rewrite bool_decide_eq_false_2 by done.
  rewrite (run_rules_skip _ _ _ _ _ _ Hpre). simpl.
  unfold bind at 1. rewrite Hrule. reflexivity.
Qed.

(** When no rule matches, nothing is applied. *)
Lemma no_match_no_action dry_run rules path w w1 :
  each_rule false path rules w w1 ->
  run_rules dry_run rules path w = Returned tt w1.
Proof.
  intros Hr. rewrite <- (app_nil_r rules). by rewrite (run_rules_skip _ _ _ _ _ _ Hr).
Qed.

(** ** Dry runs *)

Definition lift_world {A} (g : World -> World) (o : Outcome A) : Outcome A :=
  match o with
  | Returned a w => Returned a (g w)
  | Raised e w => Raised e (g w)
  end.

(** [m] neither reads nor writes standard output. *)
Definition silent {A} (m : M A) : Prop :=
  forall s w, m (with_stdout s w) = lift_world (with_stdout s) (m w).

Lemma silent_ret {A} (a : A) : silent (ret a).
Proof. done. Qed.

Lemma silent_raise {A} e : silent (@raise A e).
Proof. done. Qed.

Lemma silent_bind {A B} (m : M A) (k : A -> M B) :
  silent m -> (forall a, silent (k a)) -> silent (bind m k).
Proof.
  intros Hm Hk s w. unfold bind. rewrite Hm.
  destruct (m w) as [a w1|e w1]; simpl; [apply Hk | done].
Qed.

Lemma silent_lift_res {A} (r : res A) : silent (lift_res r).
Proof. by destruct r. Qed.

Lemma silent_log c : silent (log c).
Proof. done. Qed.

Lemma silent_query {A} c (f : FS -> A) : silent (query c f).
Proof. done. Qed.

Lemma silent_query_res {A} c (f : FS -> res A) : silent (query_res c f).
Proof. intros s w. unfold query_res, bind, log. simpl. by destruct (f (fs w)). Qed.

Lemma silent_lru_cache key body : silent body -> silent (lru_cache key body).
Proof.
  intros Hb s w. unfold lru_cache. simpl.
  destruct (mime_cache w !! key); [done|].
  apply (silent_bind body); [done|]. intros b.
  apply silent_bind; [done | intros _; apply silent_ret].
Qed.

Lemma silent_py_all {A} (f : A -> M bool) l :
  Forall (fun x => silent (f x)) l -> silent (py_all f l).
Proof.
  induction 1 as [|x l Hx _ IH]; simpl; [apply silent_ret|].
  apply silent_bind; [done|]. intros [|]; [done | apply silent_ret].
Qed.

Lemma silent_py_any {A} (f : A -> M bool) l :
  Forall (fun x => silent (f x)) l -> silent (py_any f l).
Proof.
  induction 1 as [|x l Hx _ IH]; simpl; [apply silent_ret|].
  apply silent_bind; [done|]. intros [|]; [apply silent_ret | done].
Qed.

Lemma silent_cond_match c path : silent (cond_match c path).
Proof.
  induction c as [cs IH|cs IH|c IH|r|self r m|s cmp t|s cmp t] using Condition_nested_ind;
    simpl.
  - by apply silent_py_all.
  - by apply silent_py_any.
  - apply silent_bind; [done | intros b; apply silent_ret].
  - apply silent_ret.
  - apply silent_lru_cache. unfold mime_match_uncached.
    apply silent_bind; [apply silent_query|]. intros [|]; simpl; [|apply silent_ret].
    apply silent_bind; [apply silent_query_res|]. intros buffer.
    apply silent_bind; [apply silent_log|]. intros _.
    apply silent_bind; [apply silent_lift_res | intros mime; apply silent_ret].
  - apply silent_bind; [apply silent_query_res|]. intros st.
    apply silent_bind; [apply silent_lift_res|]. by intros d.
  - apply silent_bind; [apply silent_query_res | intros st; apply silent_ret].
Qed.

(** The rules that match [path], asked in declaration order from the world
    [w]; the list ends where a condition raises. *)
Fixpoint matching (rules : list Rule) (path : string) (w : World) : list Rule :=
  match rules with
  | [] => []
  | rule :: rules' =>
      match Rule_match rule path w with
      | Returned matched w' =>
          (if matched then [rule] else []) ++ matching rules' path w'
      | Raised _ _ => []
      end
  end.

(** The line a dry run prints for a match. *)
Definition report (path : string) (rule : Rule) : string :=
  py_str (name rule) +:+ ": " +:+ path.

Lemma matching_silent rules path s w :
  matching rules path (with_stdout s w) = matching rules path w.
Proof.
  revert s w. induction rules as [|r rules IH]; intros s w; [done|].
  simpl. unfold Rule_match. rewrite silent_cond_match.
  destruct (cond_match (condition r) path w) as [b w'|e w']; simpl; [|done].
  by rewrite IH.
Qed.

(** What a dry run leaves: the disk as it was, a log extended by calls that
    change nothing, and on standard output the lines [lines] more. *)
Record dry_run_leaves (w : World) (lines : list string) (w' : World) : Prop := {
  dry_fs : fs w' = fs w;
  dry_stdout : stdout w' = stdout w ++ lines;
  dry_calls : exists l, calls w' = calls w ++ l /\ quiet l;
}.

Lemma dry_run_rules rules path w :
  dry_run_leaves w (report path <$> matching rules path w)
    (world_of (run_rules true rules path w)).
Proof.
  revert w. induction rules as [|r rules IH]; intros w; simpl.
  - split; [done | by rewrite app_nil_r | exists []; split; [by rewrite app_nil_r | constructor]].
  - pose proof (reads_cond_match (condition r) path w) as Hobs.
    unfold bind at 1, Rule_match.
    destruct (cond_match (condition r) path w) as [[|] w1|e w1]; simpl in *.
    + destruct Hobs as [O1 O2 _ _ (l1 & O5 & O6)].
      unfold bind, print.
      specialize (IH (with_stdout (stdout w1 ++ [report path r]) w1)).
      rewrite matching_silent in IH.
      destruct IH as [I1 I2 (l2 & I3 & I4)]. simpl in *.
      change (py_str (name r) +:+ ": " +:+ path) with (report path r).
      split.
      * by rewrite I1.
      * rewrite I2, O2. by rewrite <- app_assoc.
      * exists (l1 ++ l2). rewrite I3, O5, app_assoc. split; [done | by apply Forall_app].
    + destruct Hobs as [O1 O2 _ _ (l1 & O5 & O6)].
      destruct (IH w1) as [I1 I2 (l2 & I3 & I4)].
      split.
      * by rewrite I1.
      * by rewrite I2, O2.
      * exists (l1 ++ l2). rewrite I3, O5, app_assoc. split; [done | by apply Forall_app].
    + destruct Hobs as [O1 O2 _ _ (l1 & O5 & O6)].
      split; [done | by rewrite app_nil_r | by exists l1].
Qed.

Lemma dry_run_process_path ignore rules path w :
  dry_run_leaves w
    (if bool_decide (path ∈ ignore) then []
     else report path <$> matching rules path w)
    (world_of (process_path true ignore rules path w)).
Proof.
  unfold process_path. case_bool_decide.
  - split; [done | by rewrite app_nil_r | exists []; split; [by rewrite app_nil_r | constructor]].
  - apply dry_run_rules.
Qed.

(** C2, as the code has it.  In a dry run no action runs for a candidate:
    the file system is left as it was and every call logged changes
    nothing.  A line [name: path] is printed for every rule that matches,
    in declaration order: the loop goes on after a match. *)
Theorem dry_run_reports_every_match (ignore : gset string) (rules : list Rule)
    (path : string) (w : World) :
  dry_run_leaves w
    (if bool_decide (path ∈ ignore) then []
     else report path <$> matching rules path w)
    (world_of (process_path true ignore rules path w)).
Proof.
  destruct (dry_run_process_path ignore rules path w) as [Hfs Hout Hcalls].
  split; [exact Hfs | exact Hout | exact Hcalls].
Qed.

(** ** Action chains *)

Lemma apply_actions_app l1 l2 path w :
  apply_actions (l1 ++ l2) path w =
  (let* p1 := apply_actions l1 path in apply_actions l2 p1) w.
Proof.
  revert path w. induction l1 as [|a l1 IH]; intros path w; [done|].
  simpl. unfold bind. simpl.
  destruct (action_apply a path w) as [r w1|e w1]; [|done].
  rewrite IH. reflexivity.
Qed.

(** The world after the calls [l] were logged and the disk became [f]. *)
Definition after (l : list Call) (f : FS) (w : World) : World :=
  with_fs f (with_calls (calls w ++ l) w).

(** C3.  [Rule.apply] hands each action the path the actions before it
    produced: after a prefix [l1] of the chain returned [p1], the next action
    is applied to [p1] and the rest of the chain to what that action returns,
    or to [p1] again when it returns nothing.  [CopyAction] and
    [DeleteAction] return nothing; [MoveAction] returns what [shutil.move]
    returns.  So in the chain move-then-delete the file removed is the one
    [shutil.move] returned, not the original. *)
Theorem action_chain :
  (forall l1 a l2 path w p1 w1,
     apply_actions l1 path w = Returned p1 w1 ->
     apply_actions (l1 ++ a :: l2) path w =
     (let* r := action_apply a p1 in apply_actions l2 (Py.or_ r p1)) w1)
  /\ (forall a path w r w',
     action_apply a path w = Returned r w' ->
     match a with
     | MoveAction destination =>
         exists f1, os_makedirs destination (fs w) = Ok f1
                    /\ shutil_move path destination f1 = Ok (r, fs w')
     | CopyAction _ | DeleteAction => r = None
     end)
  /\ (forall destination path w f1 moved f2,
     os_makedirs destination (fs w) = Ok f1 ->
     shutil_move path destination f1 = Ok (Some moved, f2) ->
     moved <> "" ->
     apply_actions [MoveAction destination; DeleteAction] path w =
     let log := [CallMakedirs destination; CallMove path destination; CallRemove moved] in
     match os_remove moved f2 with
     | Ok f3 => Returned moved (after log f3 w)
     | Fail e => Raised e (after log f2 w)
     end).
Proof.
  split; [|split].
  - intros l1 a l2 path w p1 w1 H1.
    rewrite apply_actions_app. unfold bind at 1. by rewrite H1.
  - intros [destination|destination|] path w r w'; simpl;
      unfold effect, effect_with, bind, log, set_fs, ret; simpl.
    + destruct (os_makedirs destination (fs w)) as [f1|e] eqn:Hmk; simpl; [|done].
      destruct (shutil_move path destination f1) as [[r' f2]|e] eqn:Hmv; simpl; [|done].
      intros [= <- <-]. exists f1. by rewrite Hmv.
    + destruct (os_makedirs destination (fs w)) as [f1|e]; simpl; [|done].
      destruct (shutil_copy2 path destination f1) as [f2|e]; simpl; [|done].
      by intros [= <- _].
    + destruct (os_remove path (fs w)) as [f1|e]; simpl; [|done].
      by intros [= <- _].
  - intros destination path w f1 moved f2 Hmk Hmv Hne. simpl.
    unfold effect, effect_with, bind, log, set_fs, ret; simpl.
    rewrite Hmk. simpl. rewrite Hmv. simpl.
    unfold Py.or_. rewrite bool_decide_eq_false_2 by done.
    unfold after, with_fs, with_calls. simpl.
    destruct (os_remove moved f2) as [f3|e]; simpl; by rewrite <- !app_assoc.
Qed.

(** ** The MIME condition *)

(** C9, as the code has it.  For a path that is not a regular file,
    [MimeCondition.match] opens and sniffs nothing and raises nothing: a
    result memoised for this object and path is returned as it is, whatever
    the path denotes now; with none memoised, the one call is
    [os.path.isfile], the result is false, and false is memoised. *)
Theorem mime_match_non_file (self : ObjId) (regex : Regex) (magic_bytes : Data)
    (path : string) (w : World) :
  os_path_isfile path (fs w) = false ->
  cond_match (MimeCondition self regex magic_bytes) path w =
  match mime_cache w !! (self, path) with
  | Some memoised => Returned memoised w
  | None =>
      Returned false
        (with_cache (<[(self, path) := false]> (mime_cache w))
           (with_calls (calls w ++ [CallIsFile path]) w))
  end.
Proof.
  intros Hfile. simpl. unfold lru_cache.
  destruct (mime_cache w !! (self, path)); [done|].
  unfold mime_match_uncached, bind, query, log, cache_put, ret. simpl.
  by rewrite Hfile.
Qed.

(** A memoised result is returned for any path, regular file or not. *)
Lemma mime_match_memoised self regex magic_bytes path w b :
  mime_cache w !! (self, path) = Some b ->
  cond_match (MimeCondition self regex magic_bytes) path w = Returned b w.
Proof. intros Hc. simpl. unfold lru_cache. by rewrite Hc. Qed.

(** ** Nodes with several keys *)



(** ** The unit table of the size condition *)

Lemma cmp_int_1024 n : Py.cmp_int_float n 1024%float = Some (n * 2 ^ 42 ?= 2 ^ 52)%Z.
Proof. reflexivity. Qed.

Lemma cmp_int_1000 n : Py.cmp_int_float n 1000%float = Some (n * 2 ^ 43 ?= 1000 * 2 ^ 43)%Z.
Proof. reflexivity. Qed.

Lemma gt_1024 n : size_predicate OpGt 1024%float n = (1024 <? n)%Z.
Proof.
  unfold size_predicate. rewrite cmp_int_1024.
  destruct (Z.compare_spec (n * 2 ^ 42) (2 ^ 52)); destruct (Z.ltb_spec 1024 n);
    simpl; try reflexivity; lia.
Qed.

Lemma gt_1000 n : size_predicate OpGt 1000%float n = (1000 <? n)%Z.
Proof.
  unfold size_predicate. rewrite cmp_int_1000.
  destruct (Z.compare_spec (n * 2 ^ 43) (1000 * 2 ^ 43)); destruct (Z.ltb_spec 1000 n);
    simpl; try reflexivity; lia.
Qed.

Definition size_decl (s : string) : Data := DDict [(SStr "size", DScalar (SStr s))].

(** [SizeCondition.match] for the comparison [>] with a threshold
    [limit]: what it gives for each outcome of [os.stat]. *)
Definition size_gt_outcome (limit : Z) (path : string) (w : World) : Outcome bool :=
  let w' := with_calls (calls w ++ [CallStat path]) w in
  match os_stat path (fs w) with
  | Ok st => Returned (limit <? st_size st)%Z w'
  | Fail e => Raised e w'
  end.

(** C5.  [UNITS] holds the nine bindings below and no other; the unit of a
    size expression enters only through its lower-case form; and the
    conditions [> 1 kb] and [> 1 kib] compare the byte length [os.stat]
    reports against 1024 and 1000. *)
Theorem size_unit_table :
  (forall u v,
     UNITS !! u = Some v <->
     (u, v) ∈ [("b", 1); ("kb", 1024); ("mb", 1024 ^ 2); ("gb", 1024 ^ 3);
               ("tb", 1024 ^ 4); ("kib", 1000); ("mib", 1000 ^ 2);
               ("gib", 1000 ^ 3); ("tib", 1000 ^ 4)]%Z)
  /\ (forall s s' c n u u',
     PyStr.split s = [c; n; u] -> PyStr.split s' = [c; n; u'] ->
     PyStr.lower u = PyStr.lower u' ->
     parse_size_condition (DScalar (SStr s)) = parse_size_condition (DScalar (SStr s')))
  /\ (forall self,
     make_condition self (size_decl "> 1 kb") = Ok (SizeCondition "> 1 kb" OpGt 1024%float)
     /\ make_condition self (size_decl "> 1 KB") = Ok (SizeCondition "> 1 KB" OpGt 1024%float)
     /\ make_condition self (size_decl "> 1 kib") = Ok (SizeCondition "> 1 kib" OpGt 1000%float))
  /\ (forall s path w,
     cond_match (SizeCondition s OpGt 1024%float) path w = size_gt_outcome 1024 path w
     /\ cond_match (SizeCondition s OpGt 1000%float) path w = size_gt_outcome 1000 path w).
Proof.
  split; [|split; [|split]].
  - intros u v. unfold UNITS. rewrite <- elem_of_list_to_map; [done|].
    apply (bool_decide_unpack _). by vm_compute.
  - intros s s' c n u u' Hs Hs' Hu. unfold parse_size_condition, split3.
    rewrite Hs, Hs'. cbn [res_bind]. by rewrite Hu.
  - intros self. repeat split; reflexivity.
  - intros s path w. cbn [cond_match].
    unfold size_gt_outcome, query_res, bind, log, ret. cbn [fs with_calls].
    split; destruct (os_stat path (fs w)); try done.
    + by rewrite gt_1024.
    + by rewrite gt_1000.
Qed.

(** ** Unknown tags *)










(** ** Ignored paths *)

Lemma elem_of_Rule_init_ignore_paths rule_name c acts p :
  p ∈ ignore_paths (Rule_init rule_name c acts) <->
  MoveAction p ∈ acts \/ CopyAction p ∈ acts.
Proof.
  simpl. rewrite elem_of_union_list. split.
  - intros (X & HX & Hp). apply list_elem_of_fmap in HX as (a & -> & Ha).
    destruct a as [d|d|]; simpl in Hp; [| |set_solver].
    + apply elem_of_singleton in Hp as ->. by left.
    + apply elem_of_singleton in Hp as ->. by right.
  - intros [Ha|Ha]; eexists; (split; [apply list_elem_of_fmap; eexists; split; [reflexivity | exact Ha]|]);
      simpl; set_solver.
Qed.

(** A candidate equal to the absolute form of the root, or to an ignore
    path of a rule, is passed over: no rule is asked and nothing changes. *)
Theorem ignored_candidate_is_skipped (dry_run : bool) (root : string)
    (rules : list Rule) (path : string) (w : World) :
  path = PosixPath.abspath (getcwd P) root
  \/ (exists rule, rule ∈ rules /\ path ∈ ignore_paths rule) ->
  process_path dry_run (effective_ignore_paths root rules) rules path w = Returned tt w.
Proof.
  intros Hin. unfold process_path. rewrite bool_decide_eq_true_2; [done|].
  unfold effective_ignore_paths. apply elem_of_union.
  destruct Hin as [->|(rule & Hrule & Hp)]; [left; set_solver|].
  right. apply elem_of_union_list. exists (ignore_paths rule). split; [|done].
  apply list_elem_of_fmap. by exists rule.
Qed.

(** ** Traversal without recursion *)

Lemma join_self_absolute root :
  PosixPath.isabs root = true -> PosixPath.join root root = root.
Proof. unfold PosixPath.join, PosixPath.isabs. by intros ->. Qed.

Lemma paths_of_names (g : PathGen) root names f extra :
  current g = Some (root, names) ->
  recursive g = false ->
  paths_of (S (length names) + extra) g f =
  Some (filter (fun p => predicate g p = true) (PosixPath.join root <$> names)).
Proof.
  revert g. induction names as [|n names IH]; intros g Hcur Hrec.
  - simpl. unfold find_paths_step. by rewrite Hcur, Hrec.
  - change (S (length (n :: names)) + extra)%nat with (S (S (length names) + extra)).
    cbn [paths_of]. unfold find_paths_step. rewrite Hcur.
    rewrite fmap_cons, filter_cons.
    destruct (predicate g (PosixPath.join root n)) eqn:Hp.
    + rewrite decide_True by done. by rewrite IH.
    + rewrite decide_False by done. by rewrite IH.
Qed.

(** Without recursion [find_paths] yields, of the paths [predicate]
    accepts, the root's subdirectories, the root's files and then the join
    of the root with itself, and nothing below; that last path is the root
    when the root is absolute. *)
Theorem find_paths_not_recursive (path : string) (pred : string -> bool)
    (follow : bool) (f : FS) (directories file_names : list string) (fuel : nat) :
  walk_scandir path f = Some (directories, file_names) ->
  (length directories + length file_names + 3 <= fuel)%nat ->
  paths_of fuel (find_paths path pred false follow) f =
  Some (filter (fun p => pred p = true)
          ((PosixPath.join path <$> directories) ++ (PosixPath.join path <$> file_names)
           ++ [PosixPath.join path path]))
  /\ (PosixPath.isabs path = true -> PosixPath.join path path = path).
Proof.
  intros Hscan Hfuel. split; [|apply join_self_absolute].
  destruct fuel as [|fuel]; [lia|].
  cbn [paths_of]. unfold find_paths_step, find_paths, walk_next.
  cbn [current walker start]. rewrite Hscan.
  cbn [predicate recursive follow_symlinks].
  set (names := directories ++ file_names ++ [path]).
  replace fuel with (S (length names) + (fuel - S (length names)))%nat
    by (unfold names; rewrite !length_app; simpl; lia).
  rewrite (paths_of_names _ path names) by done.
  unfold names. by rewrite !fmap_app.
Qed.

(** ** A whole dry run *)

(** [w'] has the disk of [w], and the calls logged since change nothing. *)
Definition undisturbed (w w' : World) : Prop :=
  fs w' = fs w /\ exists l, calls w' = calls w ++ l /\ quiet l.

Lemma undisturbed_refl w : undisturbed w w.
Proof. split; [done|]. exists []. split; [by rewrite app_nil_r | constructor]. Qed.

Lemma undisturbed_trans w1 w2 w3 :
  undisturbed w1 w2 -> undisturbed w2 w3 -> undisturbed w1 w3.
Proof.
  intros [A1 (l1 & A2 & A3)] [B1 (l2 & B2 & B3)]. split; [congruence|].
  exists (l1 ++ l2). rewrite B2, A2, app_assoc. split; [done | by apply Forall_app].
Qed.

Lemma observes_undisturbed w w' : observes w w' -> undisturbed w w'.
Proof. intros [? _ _ _ ?]. by split. Qed.

Lemma main_loop_dry_run fuel ignore rules paths w o :
  main_loop fuel true ignore rules paths w = Some o -> undisturbed w (world_of o).
Proof.
  revert paths w. induction fuel as [|fuel IH]; intros paths w; [done|].
  cbn [main_loop]. destruct (find_paths_step paths (fs w)) as [path paths'|paths'|].
  - pose proof (dry_run_process_path ignore rules path w) as [D1 _ D3].
    destruct (process_path true ignore rules path w) as [[] w1|e w1]; simpl in *.
    + intros Ho. eapply undisturbed_trans; [|by eapply IH]. by split.
    + intros [= <-]. by split.
  - apply IH.
  - intros [= <-]. apply undisturbed_refl.
Qed.

Lemma startup_undisturbed arguments w :
  undisturbed w (world_of (startup arguments w)).
Proof.
  unfold startup, load_rules, query, query_res, bind, log, print_err, ret.
  cbn [fs with_calls calls].
  destruct (os_path_isfile (ns_rules arguments) (fs w)); cbn [negb].
  - cbn [fs with_calls calls].
    destruct (os_path_isdir (ns_path arguments) (fs w)); cbn [negb].
    + cbn [fs with_calls calls].
      destruct (open_read _ _ _) as [content|e]; cbn.
      * destruct (yaml_load P content) as [config|e]; cbn.
        -- destruct (make_rules config); cbn; (split; [done|]);
             eexists; (split; [by rewrite <- !app_assoc | by repeat constructor]).
        -- split; [done|]. eexists; (split; [by rewrite <- !app_assoc | by repeat constructor]).
      * split; [done|]. eexists; (split; [by rewrite <- !app_assoc | by repeat constructor]).
    + cbn. split; [done|]. eexists; (split; [by rewrite <- !app_assoc | by repeat constructor]).
  - cbn. split; [done|]. eexists; (split; [done | by repeat constructor]).
Qed.

(** A dry run, however it ends, leaves the file system as it found it and
    makes no call that changes it. *)
Theorem dry_run_never_mutates (fuel : nat) (arguments : Namespace) (w : World)
    (o : Outcome Z) :
  ns_dry_run arguments = true ->
  main fuel arguments w = Some o ->
  undisturbed w (world_of o).
Proof.
  intros Hdry. unfold main. rewrite Hdry.
  pose proof (startup_undisturbed arguments w) as Hs.
  destruct (startup arguments w) as [[status|rules] w1|e w1]; simpl in Hs.
  - by intros [= <-].
  - destruct (main_loop _ _ _ _ _ _) as [[[] w2|e w2]|] eqn:Hloop; [| |done];
      intros [= <-]; eapply undisturbed_trans; [exact Hs| |exact Hs|];
      apply (main_loop_dry_run _ _ _ _ _ _ Hloop).
  - by intros [= <-].
Qed.

(** * Further properties of the engine *)

(** ** What matching leaves behind *)

(** Matching a rule against a path reads only: the disk and both output
    streams are as before, and every call logged since changes nothing on
    disk. *)
Theorem match_only_reads (rule : Rule) (path : string) (w : World) :
  fs (world_of (Rule_match rule path w)) = fs w
  /\ stdout (world_of (Rule_match rule path w)) = stdout w
  /\ stderr (world_of (Rule_match rule path w)) = stderr w
  /\ exists l, calls (world_of (Rule_match rule path w)) = calls w ++ l
               /\ Forall (fun c => mutating c = false) l.
Proof.
  destruct (reads_cond_match (condition rule) path w) as [Hfs Hout Herr _ Hcalls].
  by repeat split.
Qed.

(** A candidate no rule matches is left alone, in a dry run or not: the
    loop returns in the world the last match left, which the matches have
    only read. *)
Theorem unmatched_candidate_untouched (dry_run : bool) (rules : list Rule)
    (path : string) (w w1 : World) :
  each_rule false path rules w w1 ->
  run_rules dry_run rules path w = Returned tt w1 /\ observes w w1.
Proof.
  intros Hr. split.
  - rewrite <- (app_nil_r rules). by rewrite (run_rules_skip _ _ _ _ _ _ Hr).
  - induction Hr as [|r rules w w1 w2 Hm _ IH]; [apply observes_refl|].
    eapply observes_trans; [|exact IH].
    pose proof (reads_cond_match (condition r) path w) as Hobs.
    unfold Rule_match in Hm. by rewrite Hm in Hobs.
Qed.

(** ** The cache of the MIME condition *)

(** Once [MimeCondition.match] has returned for an object and a path, the
    result is memoised: asked again for that path the object returns the
    same result in any later state of the disk, with no call at all. *)
Theorem mime_result_is_memoised (self : ObjId) (regex : Regex) (magic_bytes : Data)
    (path : string) (w w1 : World) (b : bool) :
  cond_match (MimeCondition self regex magic_bytes) path w = Returned b w1 ->
  mime_cache w1 !! (self, path) = Some b
  /\ forall f' : FS,
       cond_match (MimeCondition self regex magic_bytes) path (with_fs f' w1)
       = Returned b (with_fs f' w1).
Proof.
  intros Hm.
  assert (Hc : mime_cache w1 !! (self, path) = Some b).
  { cbn [cond_match] in Hm. unfold lru_cache in Hm.
    destruct (mime_cache w !! (self, path)) as [b'|] eqn:Hw.
    - by injection Hm as <- <-.
    - unfold bind at 1 in Hm.
      destruct (mime_match_uncached regex magic_bytes path w) as [b' w'|e w']; [|done].
      unfold bind, cache_put, ret in Hm. injection Hm as <- <-.
      cbn. apply lookup_insert_eq. }
  split; [exact Hc|].
  intros f'. cbn [cond_match]. unfold lru_cache. cbn [mime_cache with_fs]. by rewrite Hc.
Qed.

(** A call that raises memoises nothing. *)
Theorem mime_failure_is_not_memoised (self : ObjId) (regex : Regex) (magic_bytes : Data)
    (path : string) (w w1 : World) (e : Exn) :
  cond_match (MimeCondition self regex magic_bytes) path w = Raised e w1 ->
  mime_cache w1 = mime_cache w /\ mime_cache w !! (self, path) = None.
Proof.
  cbn [cond_match]. unfold lru_cache.
  destruct (mime_cache w !! (self, path)) as [b'|] eqn:Hw; [done|].
  unfold bind at 1.
  pose proof (reads_mime_match_uncached regex magic_bytes path w) as _.
  unfold mime_match_uncached, query, query_res, bind, log, ret, cache_put.
  cbn [fs with_calls].
  destruct (os_path_isfile path (fs w)); cbn [negb]; [|done].
  cbn [fs with_calls].
  destruct (open_read path magic_bytes (fs w)) as [buffer|e']; cbn.
  - destruct (magic_from_buffer P buffer) as [mime|e'']; cbn; [done|].
    by intros [= <- <-].
  - by intros [= <- <-].
Qed.

(** ** Conditions on [os.stat] *)

(** What a comparator says of two integers. *)
Definition holds (op : Comparator) (a b : Z) : bool :=
  match op with
  | OpGt => (b <? a)%Z
  | OpGe => (b <=? a)%Z
  | OpEq => (a =? b)%Z
  | OpLe => (a <=? b)%Z
  | OpLt => (a <? b)%Z
  end.

Lemma compare_by_holds op a b : compare_by op (Some (a ?= b)%Z) = holds op a b.
Proof.
  destruct op; simpl; destruct (Z.compare_spec a b);
    repeat match goal with
           | |- context [(?x <? ?y)%Z] => destruct (Z.ltb_spec x y)
           | |- context [(?x <=? ?y)%Z] => destruct (Z.leb_spec x y)
           | |- context [(?x =? ?y)%Z] => destruct (Z.eqb_spec x y)
           end; try reflexivity; lia.
Qed.

(** The size and age conditions have no guard against a path [os.stat]
    fails on: where [MimeCondition] returns false, they raise the error of
    [os.stat], after that one call. *)
Theorem stat_conditions_raise_on_missing_path (s : string) (op : Comparator)
    (size : float) (time_delta : Z) (path : string) (w : World) (e : Exn) :
  os_stat path (fs w) = Fail e ->
  cond_match (SizeCondition s op size) path w
  = Raised e (with_calls (calls w ++ [CallStat path]) w)
  /\ cond_match (AgeCondition s op time_delta) path w
     = Raised e (with_calls (calls w ++ [CallStat path]) w).
Proof.
  intros Hstat. cbn [cond_match]. unfold query_res, bind, log. cbn [fs with_calls].
  by rewrite Hstat.
Qed.

(** [AgeCondition.match] compares the time elapsed since the modification
    time, [now - fromtimestamp(st_mtime)], with the time delta, strictly or
    not as the comparator says; at the threshold itself [>=], [=] and [<=]
    hold and [>] and [<] do not. *)
Theorem age_match_compares_elapsed_time (s : string) (op : Comparator) (time_delta : Z)
    (path : string) (w : World) (st : Stat) (modified : Z) :
  os_stat path (fs w) = Ok st ->
  fromtimestamp P (st_mtime st) = Ok modified ->
  cond_match (AgeCondition s op time_delta) path w
  = Returned (holds op (now w - modified)%Z time_delta)
      (with_calls (calls w ++ [CallStat path]) w)
  /\ ((now w - modified)%Z = time_delta ->
      holds op (now w - modified)%Z time_delta
      = match op with OpGe | OpEq | OpLe => true | OpGt | OpLt => false end).
Proof.
  intros Hstat Htime. split.
  - cbn [cond_match]. unfold query_res, bind, log, age_predicate. cbn [fs with_calls].
    rewrite Hstat, Htime. cbn [lift_res ret now]. by rewrite compare_by_holds.
  - intros ->. destruct op; simpl;
      [apply Z.ltb_irrefl | apply Z.leb_refl | apply Z.eqb_refl | apply Z.leb_refl
      | apply Z.ltb_irrefl].
Qed.

(** ** Size comparisons at the units *)

Ltac float_threshold :=
  unfold size_predicate, Py.cmp_int_float;
  match goal with
  | |- context [Prim2SF ?f] =>
      let r := eval vm_compute in (Prim2SF f) in change (Prim2SF f) with r
  end;
  cbv beta iota;
  match goal with
  | |- context [(0 <=? ?e)%Z] => change (0 <=? e)%Z with false
  end;
  cbv beta iota;
  repeat match goal with
         | |- context [(2 ^ ?k)%Z] =>
             let r := eval vm_compute in (2 ^ k)%Z in change (2 ^ k)%Z with r
         end.

Lemma holds_scaled op n v k m :
  (0 < k)%Z -> m = (v * k)%Z ->
  compare_by op (Some (n * k ?= m)%Z) = holds op n v.
Proof.
  intros Hk ->. rewrite compare_by_holds.
  destruct op; simpl;
    repeat match goal with
           | |- context [(?x <? ?y)%Z] => destruct (Z.ltb_spec x y)
           | |- context [(?x <=? ?y)%Z] => destruct (Z.leb_spec x y)
           | |- context [(?x =? ?y)%Z] => destruct (Z.eqb_spec x y)
           end; try reflexivity; nia.
Qed.

(** For each of the nine units and each of the five comparators, the
    predicate built for the magnitude 1 compares the byte length with the
    unit's value exactly: at the threshold [>=], [=] and [<=] hold, one byte
    off they turn. *)
Theorem size_comparators_at_units (op : Comparator) (u : string) (v n : Z) :
  UNITS !! u = Some v ->
  size_predicate op (PrimFloat.mul (Py.float_of_Z v) (Py.float_of_Z 1)) n = holds op n v.
Proof.
  intros Hu.
  assert (Hin : (u, v) ∈ [("b", 1); ("kb", 1024); ("mb", 1024 ^ 2); ("gb", 1024 ^ 3);
                          ("tb", 1024 ^ 4); ("kib", 1000); ("mib", 1000 ^ 2);
                          ("gib", 1000 ^ 3); ("tib", 1000 ^ 4)]%Z).
  { apply elem_of_list_to_map; [|exact Hu]. apply (bool_decide_unpack _). by vm_compute. }
  repeat (apply elem_of_cons in Hin as [[= -> ->]|Hin];
          [float_threshold; apply holds_scaled; [lia | reflexivity]|]).
  by apply elem_of_nil in Hin.
Qed.

(** ** Exit statuses *)

(** [main] ends with status 1 and one line on the error stream when the
    rule file is no file, and, that check passed, when the root is no
    directory; nothing else happens: no rule file is read.  When both
    checks pass, a run that returns returns status 0. *)
Theorem main_exit_status (fuel : nat) (arguments : Namespace) (w : World) :
  (os_path_isfile (ns_rules arguments) (fs w) = false ->
   main fuel arguments w
   = Some (Returned 1%Z
             (with_stderr (stderr w ++ ["No such file: " +:+ ns_rules arguments])
                (with_calls (calls w ++ [CallIsFile (ns_rules arguments)]) w))))
  /\ (os_path_isfile (ns_rules arguments) (fs w) = true ->
      os_path_isdir (ns_path arguments) (fs w) = false ->
      main fuel arguments w
      = Some (Returned 1%Z
                (with_stderr (stderr w ++ ["No such folder: " +:+ ns_path arguments])
                   (with_calls (calls w ++ [CallIsFile (ns_rules arguments);
                                            CallIsDir (ns_path arguments)]) w))))
  /\ (os_path_isfile (ns_rules arguments) (fs w) = true ->
      os_path_isdir (ns_path arguments) (fs w) = true ->
      forall status w', main fuel arguments w = Some (Returned status w') -> status = 0%Z).
Proof.
  unfold main, startup, query, bind, log, print_err, ret. cbn [fs with_calls].
  split; [|split].
  - intros ->. reflexivity.
  - intros -> Hdir. cbn [negb fs with_calls]. rewrite Hdir. cbn.
    by rewrite <- app_assoc.
  - intros -> Hdir status w'. cbn [negb fs with_calls]. rewrite Hdir. cbn [negb].
    destruct (load_rules _ _) as [rules w1|e w1]; [|done].
    destruct (main_loop _ _ _ _ _ _) as [[[] w2|e w2]|]; [|done|done].
    by intros [= <- _].
Qed.

(** ** Failing actions *)

(** An action that raises ends the chain: the actions after it are not
    applied, and the world is the one the failing call left.  When
    [os.makedirs] fails for a move or a copy, nothing is moved or copied:
    the only call made is [os.makedirs], and the disk is as it was. *)
Theorem failing_action_stops_chain :
  (forall l1 a l2 path w p1 w1 e w2,
     apply_actions l1 path w = Returned p1 w1 ->
     action_apply a p1 w1 = Raised e w2 ->
     apply_actions (l1 ++ a :: l2) path w = Raised e w2)
  /\ (forall destination path w e,
     os_makedirs destination (fs w) = Fail e ->
     action_apply (MoveAction destination) path w
     = Raised e (with_calls (calls w ++ [CallMakedirs destination]) w)
     /\ action_apply (CopyAction destination) path w
        = Raised e (with_calls (calls w ++ [CallMakedirs destination]) w)).
Proof.
  split.
  - intros l1 a l2 path w p1 w1 e w2 H1 Ha.
    rewrite apply_actions_app. unfold bind at 1. rewrite H1.
    cbn [apply_actions]. unfold bind at 1. by rewrite Ha.
  - intros destination path w e Hmk. cbn [action_apply].
    unfold effect, effect_with, bind, log. cbn [fs with_calls].
    rewrite Hmk. by cbn.
Qed.

(** ** Rules as they are loaded *)

Lemma res_imap_lookup {A B} (f : nat -> A -> res B) i l ys :
  res_imap f i l = Ok ys ->
  length ys = length l
  /\ forall k y, ys !! k = Some y ->
       exists x, l !! k = Some x /\ f (i + k)%nat x = Ok y.
Proof.
  revert i ys. induction l as [|x l IH]; intros i ys; simpl.
  - intros [= <-]. split; [done|]. intros k y Hk. by rewrite lookup_nil in Hk.
  - destruct (f i x) as [y0|e] eqn:Hx; simpl; [|done].
    destruct (res_imap f (S i) l) as [ys0|e] eqn:Hl; simpl; [|done].
    intros [= <-]. destruct (IH _ _ Hl) as [Hlen Hk]. split; [simpl; by rewrite Hlen|].
    intros [|k] y; simpl.
    + intros [= <-]. exists x. by rewrite Nat.add_0_r.
    + intros Hy. destruct (Hk k y Hy) as (x' & Hx' & Hf). exists x'. split; [done|].
      by replace (i + S k)%nat with (S i + k)%nat by lia.
Qed.

Lemma make_rule_inv i data rule :
  make_rule i data = Ok rule ->
  exists body rest c a,
    data = DDict ((name rule, body) :: rest)
    /\ subscript body "condition" = Ok c
    /\ make_condition [i] c = Ok (condition rule)
    /\ subscript body "actions" = Ok a
    /\ make_actions a = Ok (actions rule)
    /\ rule = Rule_init (name rule) (condition rule) (actions rule).
Proof.
  unfold make_rule.
  destruct data as [s|l|[|[n body] rest]]; try done. cbn [first_item res_bind].
  destruct (subscript body "condition") as [c|e] eqn:Hc; [|done]. cbn [res_bind].
  destruct (make_condition [i] c) as [built|e] eqn:Hb; [|done]. cbn [res_bind].
  destruct (subscript body "actions") as [a|e] eqn:Ha; [|done]. cbn [res_bind].
  destruct (make_actions a) as [acts|e] eqn:Hacts; [|done]. cbn [res_bind].
  intros [= <-]. by exists body, rest, c, a.
Qed.

(** The rules [load_rules] builds stand in the order of their
    declarations, one per declaration: the rule at position [k] has the
    name that is the first key of the declaration at position [k], and is
    what [make_rule] builds from it. *)
Theorem rules_keep_declaration_order (config : Data) (rules : list Rule) :
  make_rules config = Ok rules ->
  exists decls,
    py_iter config = Ok decls
    /\ length rules = length decls
    /\ forall k rule, rules !! k = Some rule ->
         exists body rest,
           decls !! k = Some (DDict ((name rule, body) :: rest))
           /\ make_rule k (DDict ((name rule, body) :: rest)) = Ok rule.
Proof.
  unfold make_rules. destruct (py_iter config) as [decls|e]; [|done]. cbn [res_bind].
  intros Hmap. exists decls. destruct (res_imap_lookup _ _ _ _ Hmap) as [Hlen Hk].
  split; [done|]. split; [done|].
  intros k rule Hrule. destruct (Hk k rule Hrule) as (d & Hd & Hmake).
  simpl in Hmake. destruct (make_rule_inv _ _ _ Hmake) as (body & rest & c & a & -> & _).
  by exists body, rest.
Qed.

(** Every rule [load_rules] builds ignores exactly the destinations of its
    own move and copy actions; a delete action adds nothing. *)
Theorem built_rules_ignore_their_destinations (config : Data) (rules : list Rule)
    (rule : Rule) (p : string) :
  make_rules config = Ok rules ->
  rule ∈ rules ->
  p ∈ ignore_paths rule <-> MoveAction p ∈ actions rule \/ CopyAction p ∈ actions rule.
Proof.
  unfold make_rules. destruct (py_iter config) as [decls|e]; [|done]. cbn [res_bind].
  intros Hmap Hin. apply list_elem_of_lookup in Hin as [k Hk].
  destruct (res_imap_lookup _ _ _ _ Hmap) as [_ Hlook].
  destruct (Hlook k rule Hk) as (d & _ & Hmake).
  destruct (make_rule_inv _ _ _ Hmake) as (_ & _ & _ & _ & _ & _ & _ & _ & _ & Hinit).
  rewrite Hinit at 1. apply elem_of_Rule_init_ignore_paths.
Qed.

(** What is no rule declaration: a declaration that is not a mapping, an
    empty mapping, a body that is not a mapping, a body without
    [condition], and, the condition built, a body without [actions]; a rule
    file that is empty (the loader gives [None]) and one that holds an
    empty list. *)
Theorem malformed_rule_declarations (i : nat) :
  (forall s, make_rule i (DScalar s) = Fail AttributeError)
  /\ (forall l, make_rule i (DList l) = Fail AttributeError)
  /\ make_rule i (DDict []) = Fail IndexError
  /\ (forall rule_name s rest,
        make_rule i (DDict ((rule_name, DScalar s) :: rest)) = Fail TypeError)
  /\ (forall rule_name items rest,
        dict_get items "condition" = None ->
        make_rule i (DDict ((rule_name, DDict items) :: rest)) = Fail KeyError)
  /\ (forall rule_name items rest c built,
        dict_get items "condition" = Some c ->
        make_condition [i] c = Ok built ->
        dict_get items "actions" = None ->
        make_rule i (DDict ((rule_name, DDict items) :: rest)) = Fail KeyError)
  /\ make_rules (DScalar SNone) = Fail TypeError
  /\ make_rules (DList []) = Ok [].
Proof.
  repeat split; try done.
  - intros rule_name items rest Hc. unfold make_rule. cbn [first_item res_bind subscript].
    by rewrite Hc.
  - intros rule_name items rest c built Hc Hb Ha. unfold make_rule.
    cbn [first_item res_bind subscript]. rewrite Hc. cbn [of_option res_bind].
    rewrite Hb. cbn [res_bind]. by rewrite Ha.
Qed.

(** ** Arguments of composite conditions *)

(** The children of [all] and [any] cannot be given as a mapping, and the
    child of [not] can only be given as a mapping under the key
    [condition_datum]: a condition written as the value of [not] itself is
    taken for keyword arguments and refused; so are two children for
    [not], and [not] with none. *)
Theorem composite_arguments_as_mapping :
  (forall self tag k kv kw rest,
     table_get CONDITIONS tag = Some (ClsTerm k) ->
     make_condition self (DDict ((tag, DDict (kv :: kw)) :: rest)) = Fail TypeError)
  /\ (forall self tag key d kw rest,
     table_get CONDITIONS tag = Some ClsNot ->
     kw <> [] \/ is_key key "condition_datum" = false ->
     make_condition self (DDict ((tag, DDict ((key, d) :: kw)) :: rest)) = Fail TypeError)
  /\ (forall self tag l rest,
     table_get CONDITIONS tag = Some ClsNot ->
     length l <> 1%nat ->
     make_condition self (DDict ((tag, DList l) :: rest)) = Fail TypeError)
  /\ (forall self tag,
     table_get CONDITIONS tag = Some ClsNot ->
     make_condition self (DScalar tag) = Fail TypeError).
Proof.
  split; [|split; [|split]].
  - intros self tag k kv kw rest Hget. cbn [make_condition]. by rewrite Hget.
  - intros self tag key d kw rest Hget Hbad. cbn [make_condition]. rewrite Hget.
    destruct kw as [|kv kw]; [|done].
    destruct Hbad as [Hbad| ->]; [done | done].
  - intros self tag l rest Hget Hlen. cbn [make_condition]. rewrite Hget.
    by destruct l as [|d [|d' l]].
  - intros self tag Hget. cbn [make_condition]. by rewrite Hget.
Qed.

(** A bare [all] or [any], or one over no child (an empty list or an
    empty mapping), builds a composite without children: [all] then
    matches every path and [any] none, and neither makes a call. *)
Theorem empty_composites (self : ObjId) (tag : Scalar) (k : TermClass)
    (path : string) (w : World) :
  table_get CONDITIONS tag = Some (ClsTerm k) ->
  make_condition self (DScalar tag) = Ok (term k [])
  /\ make_condition self (DDict [(tag, DList [])]) = Ok (term k [])
  /\ make_condition self (DDict [(tag, DDict [])]) = Ok (term k [])
  /\ cond_match (term k []) path w
     = Returned (match k with ClsAll => true | ClsAny => false end) w.
Proof.
  intros Hget. cbn [make_condition]. rewrite Hget. by destruct k.
Qed.

(** ** Condition strings *)

(** What the strings of [age] and [size] must look like: three words
    separated by whitespace, or [ValueError].  [age] then wants a
    comparator of the table, or [KeyError], an integer magnitude, or
    [ValueError], and a unit that is a keyword of [timedelta], or
    [TypeError], checked in this order; [size] wants a unit of [UNITS], or
    [KeyError], a magnitude [float] reads, or [ValueError], and only then
    a comparator of the table, or [KeyError]. *)
Theorem condition_string_errors (self : ObjId) (s : string) :
  let age := make_condition self (DDict [(SStr "age", DScalar (SStr s))]) in
  let size := make_condition self (DDict [(SStr "size", DScalar (SStr s))]) in
  (length (PyStr.split s) <> 3%nat -> age = Fail ValueError /\ size = Fail ValueError)
  /\ (forall c n u, PyStr.split s = [c; n; u] ->
        COMPARATORS !! c = None -> age = Fail KeyError)
  /\ (forall c n u op, PyStr.split s = [c; n; u] ->
        COMPARATORS !! c = Some op -> PyStr.to_int n = None -> age = Fail ValueError)
  /\ (forall c n u op z, PyStr.split s = [c; n; u] ->
        COMPARATORS !! c = Some op -> PyStr.to_int n = Some z ->
        TIMEDELTA_UNITS !! PyStr.lower u = None -> age = Fail TypeError)
  /\ (forall c n u, PyStr.split s = [c; n; u] ->
        UNITS !! PyStr.lower u = None -> size = Fail KeyError)
  /\ (forall c n u v, PyStr.split s = [c; n; u] ->
        UNITS !! PyStr.lower u = Some v -> py_float n = None -> size = Fail ValueError)
  /\ (forall c n u v x, PyStr.split s = [c; n; u] ->
        UNITS !! PyStr.lower u = Some v -> py_float n = Some x ->
        COMPARATORS !! c = None -> size = Fail KeyError).
Proof.
  intros age size. subst age size. cbn [make_condition].
  change (table_get CONDITIONS (SStr "age")) with (Some (ClsLeaf ClsAge)).
  change (table_get CONDITIONS (SStr "size")) with (Some (ClsLeaf ClsSize)).
  cbn [call_args make_leaf bind_args bind_positional fmap option_fmap option_map
       of_option res_bind string_of].
  unfold parse_age_condition, parse_size_condition, split3.
  split; [|split; [|split; [|split; [|split; [|split]]]]].
  - intros Hlen. destruct (PyStr.split s) as [|a [|b [|c [|d l]]]]; done.
  - intros c n u -> Hc. cbn [res_bind]. by rewrite Hc.
  - intros c n u op -> Hc Hn. cbn [res_bind]. rewrite Hc. cbn [of_option res_bind].
    by rewrite Hn.
  - intros c n u op z -> Hc Hn Hu. cbn [res_bind]. rewrite Hc. cbn [of_option res_bind].
    rewrite Hn. cbn [of_option res_bind]. unfold timedelta. by rewrite Hu.
  - intros c n u -> Hu. cbn [res_bind]. by rewrite Hu.
  - intros c n u v -> Hu Hn. cbn [res_bind]. rewrite Hu. cbn [of_option res_bind].
    by rewrite Hn.
  - intros c n u v x -> Hu Hn Hc. cbn [res_bind]. rewrite Hu. cbn [of_option res_bind].
    rewrite Hn. cbn [of_option res_bind]. by rewrite Hc.
Qed.

(** ** Arguments of actions *)

Lemma ACTIONS_move_copy :
  ACTIONS !! "move" = Some ClsMove /\ ACTIONS !! "copy" = Some ClsCopy.
Proof. done. Qed.

(** [move] and [copy] alike take exactly one destination, a string, given
    as the value, as a one-element list or under the key [destination], and
    keep it after [os.path.expanduser].  Both are refused with [TypeError]
    when bare or given no argument, given two arguments or more, given a
    keyword other than [destination], or given a destination that is no
    string, in any of the three forms.  [delete] takes no argument: bare or
    with an empty list or mapping it is built, with any argument it is
    refused. *)
Theorem action_arguments :
  (forall (tag : string) (build : string -> Action),
     (tag = "move" /\ build = MoveAction) \/ (tag = "copy" /\ build = CopyAction) ->
     (forall s,
        make_action (DDict [(SStr tag, DScalar (SStr s))]) = Ok (build (expanduser P s))
        /\ make_action (DDict [(SStr tag, DList [DScalar (SStr s)])])
           = Ok (build (expanduser P s))
        /\ make_action (DDict [(SStr tag, DDict [(SStr "destination", DScalar (SStr s))])])
           = Ok (build (expanduser P s)))
     /\ make_action (DScalar (SStr tag)) = Fail TypeError
     /\ make_action (DDict [(SStr tag, DList [])]) = Fail TypeError
     /\ make_action (DDict [(SStr tag, DDict [])]) = Fail TypeError
     /\ (forall a b l,
           make_action (DDict [(SStr tag, DList (a :: b :: l))]) = Fail TypeError)
     /\ (forall key d,
           is_key key "destination" = false ->
           make_action (DDict [(SStr tag, DDict [(key, d)])]) = Fail TypeError)
     /\ (forall x, (forall s, x <> SStr s) ->
           make_action (DDict [(SStr tag, DScalar x)]) = Fail TypeError)
     /\ (forall d, (forall s, d <> DScalar (SStr s)) ->
           make_action (DDict [(SStr tag, DList [d])]) = Fail TypeError
           /\ make_action (DDict [(SStr tag, DDict [(SStr "destination", d)])])
              = Fail TypeError))
  /\ make_action (DScalar (SStr "delete")) = Ok DeleteAction
  /\ make_action (DDict [(SStr "delete", DList [])]) = Ok DeleteAction
  /\ make_action (DDict [(SStr "delete", DDict [])]) = Ok DeleteAction
  /\ (forall x, make_action (DDict [(SStr "delete", DScalar x)]) = Fail TypeError)
  /\ (forall d l, make_action (DDict [(SStr "delete", DList (d :: l))]) = Fail TypeError)
  /\ (forall kv kw, make_action (DDict [(SStr "delete", DDict (kv :: kw))]) = Fail TypeError).
Proof.
  split; [|by repeat split].
  intros tag build [[-> ->]|[-> ->]].
  all: split; [by repeat split|].
  all: do 4 (split; [done|]).
  all: split; [intros key d Hkey; unfold make_action; cbn [call_args];
               unfold table_get;
               rewrite ?(proj1 ACTIONS_move_copy), ?(proj2 ACTIONS_move_copy);
               unfold make_action_of, bind_args; cbn [forallb existsb fst];
               by rewrite Hkey|].
  all: split; [intros x Hx; destruct x as [|b|z|f|s]; try done; by destruct (Hx s)|].
  all: intros d Hd; destruct d as [[|b|z|f|s]|l|items]; try done; by destruct (Hd s).
Qed.

(** ** Paths the generator yields *)

Lemma find_paths_step_predicate g f :
  match find_paths_step g f with
  | Yield path g' => predicate g path = true /\ predicate g' = predicate g
  | Skip g' => predicate g' = predicate g
  | Stop => True
  end.
Proof.
  unfold find_paths_step.
  destruct (current g) as [[root [|n names]]|].
  - by destruct (recursive g).
  - by destruct (predicate g (PosixPath.join root n)) eqn:Hp.
  - by destruct (walk_next _ _ _) as [[[[root ds] fns] wk]|].
Qed.

(** Whatever the file system holds, every path [find_paths] yields is one
    the predicate accepts. *)
Theorem find_paths_yields_only_accepted (fuel : nat) (g : PathGen) (f : FS)
    (paths : list string) :
  paths_of fuel g f = Some paths ->
  Forall (fun p => predicate g p = true) paths.
Proof.
  revert g paths. induction fuel as [|fuel IH]; intros g paths; [done|].
  cbn [paths_of]. pose proof (find_paths_step_predicate g f) as Hstep.
  destruct (find_paths_step g f) as [path g'|g'|].
  - destruct Hstep as [Hp Hg]. destruct (paths_of fuel g' f) as [l|] eqn:Hl; [|done].
    intros [= <-]. constructor; [done|]. rewrite <- Hg. by apply IH.
  - intros Hl. rewrite <- Hstep. by apply IH.
  - intros [= <-]. constructor.
Qed.

(** ** Laws of the composite conditions *)

Lemma not_all_any path cs w :
  cond_match (NotCondition (AllCondition cs)) path w
  = cond_match (AnyCondition (NotCondition <$> cs)) path w.
Proof.
  cbn [cond_match]. revert w. induction cs as [|c cs IH]; intros w; [done|].
  simpl. unfold bind in *.
  destruct (cond_match c path w) as [[|] w1|e w1]; simpl; [|done|done].
  apply IH.
Qed.

Lemma not_any_all path cs w :
  cond_match (NotCondition (AnyCondition cs)) path w
  = cond_match (AllCondition (NotCondition <$> cs)) path w.
Proof.
  cbn [cond_match]. revert w. induction cs as [|c cs IH]; intros w; [done|].
  simpl. unfold bind in *.
  destruct (cond_match c path w) as [[|] w1|e w1]; simpl; [done| |done].
  apply IH.
Qed.

(** De Morgan's laws hold of [match] as it runs, not only of its truth
    value: [not] over [all] and [any] over the negated children return the
    same result or raise the same exception, after the same calls, because
    both stop at the first child that returns false; dually for [not] over
    [any]; and a double [not] is its child. *)
Theorem de_morgan_laws (path : string) (w : World) :
  (forall cs,
     cond_match (NotCondition (AllCondition cs)) path w
     = cond_match (AnyCondition (NotCondition <$> cs)) path w)
  /\ (forall cs,
     cond_match (NotCondition (AnyCondition cs)) path w
     = cond_match (AllCondition (NotCondition <$> cs)) path w)
  /\ (forall c,
     cond_match (NotCondition (NotCondition c)) path w = cond_match c path w).
Proof.
  split; [|split].
  - intros cs. apply not_all_any.
  - intros cs. apply not_any_all.
  - intros c. cbn [cond_match]. unfold bind, ret.
    destruct (cond_match c path w) as [b w1|e w1]; [|done]. by rewrite negb_involutive.
Qed.

(** ** Exceptions in the loop *)

(** Nothing in [main] catches an exception: when the match of a rule
    raises for a candidate, or, outside a dry run, the application of the
    rule that matched, the whole run ends with that exception, in the world
    the failing call left; the rules after it are not asked and the
    candidates after this one are not processed. *)
Theorem uncaught_exception_ends_the_run (fuel : nat) (ignore : gset string)
    (pre post : list Rule) (rule : Rule) (paths paths' : PathGen) (path : string)
    (w w1 : World) :
  find_paths_step paths (fs w) = Yield path paths' ->
  path ∉ ignore ->
  each_rule false path pre w w1 ->
  (forall dry_run e w2,
     Rule_match rule path w1 = Raised e w2 ->
     main_loop (S fuel) dry_run ignore (pre ++ rule :: post) paths w = Some (Raised e w2))
  /\ (forall e w2 w3,
     Rule_match rule path w1 = Returned true w2 ->
     Rule_apply rule path w2 = Raised e w3 ->
     main_loop (S fuel) false ignore (pre ++ rule :: post) paths w = Some (Raised e w3)).
Proof.
  intros Hstep Hin Hpre. split.
  - intros dry_run e w2 Hm. cbn [main_loop]. rewrite Hstep. unfold process_path.
    rewrite bool_decide_eq_false_2 by done.
    rewrite (run_rules_skip _ _ _ _ _ _ Hpre). cbn [run_rules].
    unfold bind at 1. by rewrite Hm.
  - intros e w2 w3 Hm Ha. cbn [main_loop]. rewrite Hstep. unfold process_path.
    rewrite bool_decide_eq_false_2 by done.
    rewrite (run_rules_skip _ _ _ _ _ _ Hpre). cbn [run_rules].
    unfold bind at 1. rewrite Hm. unfold bind at 1. by rewrite Ha.
Qed.

(** With no rule the traversal runs to its end and does nothing: it
    leaves the world as it found it, without a single call. *)
Theorem no_rules_no_effect (fuel : nat) (dry_run : bool) (ignore : gset string)
    (paths : PathGen) (w : World) (o : Outcome unit) :
  main_loop fuel dry_run ignore [] paths w = Some o ->
  o = Returned tt w.
Proof.
  revert paths. induction fuel as [|fuel IH]; intros paths; [done|].
  cbn [main_loop].
  destruct (find_paths_step paths (fs w)) as [path paths'|paths'|].
  - unfold process_path. cbn [run_rules]. destruct (bool_decide _); apply IH.
  - apply IH.
  - by intros [= <-].
Qed.

(** ** The cache during a run *)

(** A computation under which the cache of [MimeCondition.match] only
    grows. *)
Definition caching {A} (m : M A) : Prop :=
  forall w, mime_cache w ⊆ mime_cache (world_of (m w)).

Lemma caching_same {A} (m : M A) :
  (forall w, mime_cache (world_of (m w)) = mime_cache w) -> caching m.
Proof. intros Hm w. by rewrite Hm. Qed.

Lemma caching_ret {A} (a : A) : caching (ret a).
Proof. by apply caching_same. Qed.

Lemma caching_bind {A B} (m : M A) (k : A -> M B) :
  caching m -> (forall a, caching (k a)) -> caching (bind m k).
Proof.
  intros Hm Hk w. unfold bind. specialize (Hm w).
  destruct (m w) as [a w1|e w1]; simpl in *; [|done].
  etrans; [exact Hm | apply Hk].
Qed.

Lemma caching_lift_res {A} (r : res A) : caching (lift_res r).
Proof. apply caching_same. by destruct r. Qed.

Lemma caching_log c : caching (log c).
Proof. by apply caching_same. Qed.

Lemma caching_query {A} c (f : FS -> A) : caching (query c f).
Proof. by apply caching_same. Qed.

Lemma caching_query_res {A} c (f : FS -> res A) : caching (query_res c f).
Proof.
  apply caching_same. intros w. unfold query_res, bind, log. cbn [fs with_calls].
  by destruct (f (fs w)).
Qed.

Lemma caching_effect_with {A} c (f : FS -> res (A * FS)) : caching (effect_with c f).
Proof.
  apply caching_same. intros w. unfold effect_with, bind, log, set_fs, ret.
  cbn [fs with_calls]. by destruct (f (fs w)) as [[a f']|e].
Qed.

Lemma mime_match_uncached_cache regex magic_bytes path w :
  mime_cache (world_of (mime_match_uncached regex magic_bytes path w)) = mime_cache w.
Proof.
  unfold mime_match_uncached, query, query_res, bind, log, ret. cbn [fs with_calls].
  destruct (os_path_isfile path (fs w)); cbn [negb]; [|done]. cbn [fs with_calls].
  destruct (open_read path magic_bytes (fs w)) as [buffer|e]; [|done]. cbn.
  by destruct (magic_from_buffer P buffer).
Qed.

Lemma caching_lru_cache key body :
  (forall w, mime_cache (world_of (body w)) = mime_cache w) ->
  caching (lru_cache key body).
Proof.
  intros Hb w. unfold lru_cache. destruct (mime_cache w !! key) eqn:Hkey; [done|].
  unfold bind at 1. specialize (Hb w).
  destruct (body w) as [b w1|e w1]; simpl in *; [|by rewrite Hb].
  rewrite Hb. by apply insert_subseteq.
Qed.

Lemma caching_py_all {A} (f : A -> M bool) l :
  Forall (fun x => caching (f x)) l -> caching (py_all f l).
Proof.
  induction 1 as [|x l Hx _ IH]; simpl; [apply caching_ret|].
  apply caching_bind; [done|]. intros [|]; [done | apply caching_ret].
Qed.

Lemma caching_py_any {A} (f : A -> M bool) l :
  Forall (fun x => caching (f x)) l -> caching (py_any f l).
Proof.
  induction 1 as [|x l Hx _ IH]; simpl; [apply caching_ret|].
  apply caching_bind; [done|]. intros [|]; [apply caching_ret | done].
Qed.

Lemma caching_cond_match c path : caching (cond_match c path).
Proof.
  induction c as [cs IH|cs IH|c IH|r|self r m|s cmp t|s cmp t] using Condition_nested_ind;
    simpl.
  - by apply caching_py_all.
  - by apply caching_py_any.
  - apply caching_bind; [done | intros b; apply caching_ret].
  - apply caching_ret.
  - apply caching_lru_cache, mime_match_uncached_cache.
  - apply caching_bind; [apply caching_query_res|]. intros st.
    apply caching_bind; [apply caching_lift_res|]. intros d. by apply caching_same.
  - apply caching_bind; [apply caching_query_res | intros st; apply caching_ret].
Qed.

Lemma caching_action_apply a path : caching (action_apply a path).
Proof.
  destruct a as [destination|destination|]; cbn [action_apply]; unfold effect.
  - apply caching_bind; [apply caching_effect_with | intros _; apply caching_effect_with].
  - apply caching_bind; [apply caching_effect_with | intros _].
    apply caching_bind; [apply caching_effect_with | intros _; apply caching_ret].
  - apply caching_bind; [apply caching_effect_with | intros _; apply caching_ret].
Qed.

Lemma caching_apply_actions l path : caching (apply_actions l path).
Proof.
  revert path. induction l as [|a l IH]; intros path; cbn [apply_actions].
  - apply caching_ret.
  - apply caching_bind; [apply caching_action_apply | intros r; apply IH].
Qed.

Lemma caching_run_rules dry_run rules path : caching (run_rules dry_run rules path).
Proof.
  induction rules as [|r rules IH]; cbn [run_rules]; [apply caching_ret|].
  apply caching_bind; [apply caching_cond_match|]. intros [|]; [|exact IH].
  destruct dry_run.
  - apply caching_bind; [by apply caching_same | intros _; exact IH].
  - apply caching_bind; [apply caching_apply_actions | intros _; apply caching_ret].
Qed.

Lemma caching_process_path dry_run ignore rules path :
  caching (process_path dry_run ignore rules path).
Proof.
  unfold process_path. destruct (bool_decide _); [apply caching_ret | apply caching_run_rules].
Qed.

Lemma caching_main_loop fuel dry_run ignore rules paths w o :
  main_loop fuel dry_run ignore rules paths w = Some o ->
  mime_cache w ⊆ mime_cache (world_of o).
Proof.
  revert paths w. induction fuel as [|fuel IH]; intros paths w; [done|].
  cbn [main_loop].
  destruct (find_paths_step paths (fs w)) as [path paths'|paths'|].
  - pose proof (caching_process_path dry_run ignore rules path w) as Hp.
    destruct (process_path dry_run ignore rules path w) as [[] w1|e w1]; simpl in Hp.
    + intros Hloop. etrans; [exact Hp | by eapply IH].
    + by intros [= <-].
  - apply IH.
  - by intros [= <-].
Qed.

(** From any point of a run on, what [MimeCondition.match] has memoised by
    then stays memoised, unchanged: no later match, no application of
    actions and no later candidate of the loop drops or replaces the
    entry, however the loop ends and whatever has become of the file. *)
Theorem memoised_results_survive_the_run (key : ObjId * string) (b : bool) (w : World) :
  mime_cache w !! key = Some b ->
  (forall c path, mime_cache (world_of (cond_match c path w)) !! key = Some b)
  /\ (forall l path, mime_cache (world_of (apply_actions l path w)) !! key = Some b)
  /\ (forall dry_run ignore rules path,
        mime_cache (world_of (process_path dry_run ignore rules path w)) !! key = Some b)
  /\ (forall fuel dry_run ignore rules paths o,
        main_loop fuel dry_run ignore rules paths w = Some o ->
        mime_cache (world_of o) !! key = Some b).
Proof.
  intros Hkey. split; [|split; [|split]].
  - intros c path. eapply lookup_weaken; [exact Hkey | apply caching_cond_match].
  - intros l path. eapply lookup_weaken; [exact Hkey | apply caching_apply_actions].
  - intros dry_run ignore rules path.
    eapply lookup_weaken; [exact Hkey | apply caching_process_path].
  - intros fuel dry_run ignore rules paths o Hloop.
    eapply lookup_weaken; [exact Hkey | by eapply caching_main_loop].
Qed.

(** A match of [MimeCondition] that returns leaves the cache with its own
    entry, for this object and this path, and otherwise as it was: the
    results of other objects and other paths are not touched. *)
Theorem mime_match_caches_under_own_key (self : ObjId) (regex : Regex)
    (magic_bytes : Data) (path : string) (w w1 : World) (b : bool) :
  cond_match (MimeCondition self regex magic_bytes) path w = Returned b w1 ->
  mime_cache w1 = <[(self, path) := b]> (mime_cache w).
Proof.
  cbn [cond_match]. unfold lru_cache.
  destruct (mime_cache w !! (self, path)) as [b'|] eqn:Hw.
  - intros [= <- <-]. by rewrite insert_id.
  - unfold bind at 1.
    pose proof (mime_match_uncached_cache regex magic_bytes path w) as Hc.
    destruct (mime_match_uncached regex magic_bytes path w) as [b' w'|e w']; [|done].
    unfold bind, cache_put, ret. intros [= <- <-]. simpl in *. by rewrite Hc.
Qed.
End Engine.

Arguments World FS : clear implicits.
Arguments Returned {FS A} a w.
Arguments Raised {FS A} e w.

(** ** A small file system and platform to run the engine on

    Paths are resolved against a working directory; there are no symbolic
    links and no permissions.  The nodes are keyed by their absolute,
    normalised path. *)

Module Demo.

Inductive Node :=
| File (content : list Byte.byte) (mtime : float)
| Dir.

Definition Files := gmap string Node.

Definition cwd : string := "/home/u".

Definition resolve (path : string) : string := PosixPath.abspath cwd path.

Definition parent (abs : string) : string :=
  if bool_decide (abs = "/") then "/" else PosixPath.normpath (abs +:+ "/..").

Definition is_file (n : option Node) : bool :=
  match n with Some (File _ _) => true | _ => false end.
Definition is_dir (n : option Node) : bool :=
  match n with Some Dir => true | _ => false end.

Definition ENOENT : Exn := OSError "ENOENT".
Definition EISDIR : Exn := OSError "EISDIR".
Definition EEXIST : Exn := OSError "EEXIST".
Definition ENOTDIR : Exn := OSError "ENOTDIR".

Definition stat (path : string) (f : Files) : res Stat :=
  match f !! resolve path with
  | Some (File content mtime) =>
      Ok {| st_size := Z.of_nat (length content); st_mtime := mtime |}
  | Some Dir => Ok {| st_size := 4096; st_mtime := 0%float |}
  | None => Fail ENOENT
  end.

Definition read (path : string) (n : Data) (f : Files) : res (list Byte.byte) :=
  match f !! resolve path with
  | Some (File content _) =>
      match n with
      | DScalar SNone => Ok content
      | DScalar (SInt z) => Ok (if (z <? 0)%Z then content else take (Z.to_nat z) content)
      | _ => Fail TypeError
      end
  | Some Dir => Fail EISDIR
  | None => Fail ENOENT
  end.

(** The entries of a directory: the names of its subdirectories and of
    its files. *)
Definition scandir (path : string) (f : Files) : option (list string * list string) :=
  let d := resolve path in
  if is_dir (f !! d) then
    let children :=
      filter (fun kv => bool_decide (parent kv.1 = d) && negb (bool_decide (kv.1 = d)))
             (map_to_list f) in
    Some (PosixPath.basename <$> (filter (fun kv => is_dir (Some kv.2)) children).*1,
          PosixPath.basename <$> (filter (fun kv => is_file (Some kv.2)) children).*1)
  else None.

(** The directory [abs] and those above it, the root last. *)
Fixpoint ancestors (fuel : nat) (abs : string) : list string :=
  match fuel with
  | O => [abs]
  | S fuel' => if bool_decide (parent abs = abs) then [abs] else abs :: ancestors fuel' (parent abs)
  end.

Definition makedirs (path : string) (f : Files) : res Files :=
  let d := resolve path in
  let up := ancestors (String.length d) d in
  if existsb (fun a => is_file (f !! a)) up then
    Fail (if is_file (f !! d) then EEXIST else ENOTDIR)
  else Ok (foldr (fun a m => <[a := Dir]> m) f up).

Fixpoint rstrip_slash (l : list string) : list string :=
  match l with
  | [] => []
  | x :: l' =>
      match rstrip_slash l' with
      | [] => if bool_decide (x = "") then [] else [x]
      | r => x :: r
      end
  end.

(** [shutil._basename]: the base name once trailing slashes are dropped. *)
Definition shutil_basename (path : string) : string :=
  default "" (last (rstrip_slash (PyStr.split_on "/" path))).

(** The key [k] after [src] was renamed to [dst]. *)
Definition rekey (src dst k : string) : string :=
  if bool_decide (k = src) then dst
  else if PyStr.startswith k (src +:+ "/")
       then dst +:+ String.substring (String.length src) (String.length k) k
       else k.

Definition rename (src dst : string) (f : Files) : Files :=
  list_to_map ((fun kv => (rekey src dst kv.1, kv.2)) <$> map_to_list f).

Definition move (src dst : string) (f : Files) : res (option string * Files) :=
  let s := resolve src in
  if is_dir (f !! resolve dst) then
    if bool_decide (s = resolve dst) then Ok (None, f)
    else
      let real_dst := PosixPath.join dst (shutil_basename src) in
      match f !! resolve real_dst, f !! s with
      | Some _, _ => Fail (OtherError "shutil.Error")
      | None, None => Fail ENOENT
      | None, Some _ => Ok (Some real_dst, rename s (resolve real_dst) f)
      end
  else
    match f !! s with
    | None => Fail ENOENT
    | Some _ =>
        if is_dir (f !! parent (resolve dst)) then Ok (Some dst, rename s (resolve dst) f)
        else Fail ENOENT
    end.

Definition copy2 (src dst : string) (f : Files) : res Files :=
  match f !! resolve src with
  | Some (File content mtime) =>
      let target := if is_dir (f !! resolve dst)
                    then PosixPath.join dst (PosixPath.basename src) else dst in
      if bool_decide (resolve target = resolve src) then Fail (OtherError "shutil.SameFileError")
      else if is_dir (f !! parent (resolve target))
      then Ok (<[resolve target := File content mtime]> f)
      else Fail ENOENT
  | Some Dir => Fail EISDIR
  | None => Fail ENOENT
  end.

Definition remove (path : string) (f : Files) : res Files :=
  match f !! resolve path with
  | Some (File _ _) => Ok (delete (resolve path) f)
  | Some Dir => Fail EISDIR
  | None => Fail ENOENT
  end.

#[global] Instance files_fs : FileSystem Files := {|
  os_path_isfile path f := is_file (f !! resolve path);
  os_path_isdir path f := is_dir (f !! resolve path);
  os_path_islink _ _ := false;
  os_stat := stat;
  open_read := read;
  walk_scandir := scandir;
  os_makedirs := makedirs;
  shutil_move := move;
  shutil_copy2 := copy2;
  os_remove := remove;
|}.

#[global] Instance byte_eq_dec : EqDecision Byte.byte := Byte.byte_eq_dec.

Definition PNG : list Byte.byte :=
  [Byte.x89; Byte.x50; Byte.x4e; Byte.x47; Byte.x0d; Byte.x0a; Byte.x1a; Byte.x0a].

Definition lower_prefix (p s : string) : bool :=
  PyStr.startswith (PyStr.lower s) (PyStr.lower p).

(** A platform for patterns that are plain text (no metacharacters), PNG
    signatures, paths without a tilde, and a rule file whose parsed content
    is [config]. *)
Definition platform (config : Data) : Platform := {|
  re_valid _ _ := true;
  re_match r s :=
    if ignore_case r then lower_prefix (pattern r) s else PyStr.startswith s (pattern r);
  magic_from_buffer b :=
    Ok (if bool_decide (take 8 b = PNG) then "image/png" else "application/octet-stream");
  float_of_str _ := None;
  float_str _ := "";
  expanduser s := s;
  getcwd := cwd;
  yaml_load _ := Ok config;
  fromtimestamp _ := Ok 0%Z;
|}.

Definition world (f : Files) : World Files :=
  {| fs := f; mime_cache := ∅; stdout := []; stderr := []; now := 0; calls := [] |}.

(** A home directory holding the rule file and [foo], and in [foo] the
    eight-byte image [a]. *)
Definition flat : Files :=
  list_to_map
    [("/", Dir); ("/home", Dir); ("/home/u", Dir);
     ("/home/u/rules.yml", File [] 0%float); ("/home/u/foo", Dir);
     ("/home/u/foo/a", File PNG 0%float)].

(** The same with a subdirectory [sub] holding the empty file [b]. *)
Definition tree : Files :=
  <["/home/u/foo/sub" := Dir]> (<["/home/u/foo/sub/b" := File [] 0%float]> flat).

Definition photo : string := "/home/u/foo/a".

(** Rules on sizes: [big] matches nothing here, [keep] and [purge] match
    every path that exists. *)
Definition big : Rule :=
  Rule_init (SStr "big") (SizeCondition "> 1 kb" OpGt 1024%float) [DeleteAction].
Definition keep : Rule :=
  Rule_init (SStr "keep") (SizeCondition ">= 0 b" OpGe 0%float) [MoveAction "/home/u/kept"].
Definition purge : Rule :=
  Rule_init (SStr "purge") (SizeCondition ">= 0 b" OpGe 0%float) [DeleteAction].

(** What [size_rule "one" ">= 0 b"] below builds. *)
Definition purge_like : Rule :=
  Rule_init (SStr "one") (SizeCondition ">= 0 b" OpGe 0%float) [DeleteAction].

(** The declaration of a rule with a size condition and the one action
    [delete]. *)
Definition size_rule (rule_name expr : string) : Data :=
  DDict [(SStr rule_name,
          DDict [(SStr "condition", DDict [(SStr "size", DScalar (SStr expr))]);
                 (SStr "actions", DList [DScalar (SStr "delete")])])].

(** Two rules that both match every path that exists. *)
Definition two_rules : Data := DList [size_rule "one" ">= 0 b"; size_rule "two" ">= 0 b"].

(** One rule, [purge], that deletes every path that exists. *)
Definition purge_all : Data := DList [size_rule "purge" ">= 0 b"].


(** A condition on PNG images. *)
Definition is_png : Condition :=
  MimeCondition [0%nat] {| pattern := "image/png"; ignore_case := true |}
    (DScalar (SInt 1024)).

Definition arguments (root : string) (dry_run recursive : bool) : Namespace :=
  {| ns_rules := "/home/u/rules.yml"; ns_path := root; ns_dry_run := dry_run;
     ns_recursive := recursive; ns_follow_symlinks := false |}.

End Demo.

(** * The theorems at work on the small file system *)

(** The first matching rule, [keep], is applied to the image; [big] before
    it does not match, and [purge] after it, which matches too, is left
    out. *)
Lemma first_match_wins_witness :
  let w := Demo.world Demo.flat in
  let w1 := with_calls [CallStat Demo.photo] w in
  let w2 := with_calls [CallStat Demo.photo; CallStat Demo.photo] w in
  let P := Demo.platform (DList []) in
  (Demo.photo ∉ effective_ignore_paths P "/home/u/foo" [Demo.big; Demo.keep; Demo.purge])
  /\ each_rule P false Demo.photo [Demo.big] w w1
  /\ Rule_match P Demo.keep Demo.photo w1 = Returned true w2
  /\ process_path P false
       (effective_ignore_paths P "/home/u/foo" [Demo.big; Demo.keep; Demo.purge])
       [Demo.big; Demo.keep; Demo.purge] Demo.photo w =
     match Rule_apply Demo.keep Demo.photo w2 with
     | Returned _ w3 => Returned tt w3
     | Raised e w3 => Raised e w3
     end.
Proof.
  intros w w1 w2 P.
  assert (H1 : Demo.photo ∉ effective_ignore_paths P "/home/u/foo"
                 [Demo.big; Demo.keep; Demo.purge])
    by (apply (bool_decide_unpack _); vm_compute; exact I).
  assert (H2 : each_rule P false Demo.photo [Demo.big] w w1)
    by (econstructor; [vm_compute; reflexivity | constructor]).
  assert (H3 : Rule_match P Demo.keep Demo.photo w1 = Returned true w2)
    by (vm_compute; reflexivity).
  split; [exact H1 | split; [exact H2 | split; [exact H3|]]].
  exact (first_match_wins P _ [Demo.big] [Demo.purge] Demo.keep Demo.photo w w1 w2 H1 H2 H3).
Defined.

(** What that run leaves: the image moved under [kept], and no call to
    remove anything. *)
Example first_match_wins_run :
  let w := world_of (process_path (Demo.platform (DList [])) false
                       (effective_ignore_paths (Demo.platform (DList [])) "/home/u/foo"
                          [Demo.big; Demo.keep; Demo.purge])
                       [Demo.big; Demo.keep; Demo.purge] Demo.photo
                       (Demo.world Demo.flat)) in
  calls w = [CallStat Demo.photo; CallStat Demo.photo;
             CallMakedirs "/home/u/kept"; CallMove Demo.photo "/home/u/kept"]
  /\ fs w !! "/home/u/kept/a" = Some (Demo.File Demo.PNG 0%float)
  /\ fs w !! Demo.photo = None.
Proof. vm_compute. repeat split; reflexivity. Qed.

(** Against C2 as stated: a dry run over [foo], with two rules that both
    match the image, reports both for that one path; the loop does not stop
    at the first match. *)
Lemma dry_run_reports_two_rules :
  (fun o => stdout (world_of o)) <$>
    main (Demo.platform Demo.two_rules) 10
      (Demo.arguments "/home/u/foo" true false) (Demo.world Demo.flat)
  = Some ["one: /home/u/foo/a"; "two: /home/u/foo/a"]
  /\ ~ (forall (rules : list Rule) (path : string) (w : World Demo.Files),
          (length (stdout (world_of
                     (process_path (Demo.platform Demo.two_rules) true ∅ rules path w)))
           <= length (stdout w) + 1)%nat).
Proof.
  split; [vm_compute; reflexivity|].
  intros Hone.
  specialize (Hone [Demo.keep; Demo.purge] Demo.photo (Demo.world Demo.flat)).
  vm_compute in Hone. lia.
Qed.

(** Move then delete: the file removed is the one under [kept] that
    [shutil.move] returned. *)
Lemma action_chain_witness :
  apply_actions [MoveAction "/home/u/kept"; DeleteAction] Demo.photo (Demo.world Demo.flat)
  = Returned "/home/u/kept/a"
      (after [CallMakedirs "/home/u/kept"; CallMove Demo.photo "/home/u/kept";
              CallRemove "/home/u/kept/a"]
         (<["/home/u/kept" := Demo.Dir]> (delete Demo.photo Demo.flat))
         (Demo.world Demo.flat)).
Proof.
  rewrite (proj2 (proj2 action_chain) "/home/u/kept" Demo.photo (Demo.world Demo.flat)
             (<["/home/u/kept" := Demo.Dir]> Demo.flat) "/home/u/kept/a"
             (<["/home/u/kept/a" := Demo.File Demo.PNG 0%float]>
                (<["/home/u/kept" := Demo.Dir]> (delete Demo.photo Demo.flat)))).
  - vm_compute. reflexivity.
  - vm_compute. reflexivity.
  - vm_compute. reflexivity.
  - done.
Defined.

(** Against C9 as stated: the image matches and the result is memoised;
    once the image is deleted its path is no regular file, and the same
    condition still returns true for it. *)
Lemma mime_match_stale_true :
  let P := Demo.platform (DList []) in
  let w0 := Demo.world Demo.flat in
  let w1 := with_cache {[ ([0%nat], Demo.photo) := true ]}
              (with_calls [CallIsFile Demo.photo; CallOpenRead Demo.photo;
                           CallMagic Demo.PNG] w0) in
  let w2 := after [CallRemove Demo.photo] (delete Demo.photo Demo.flat) w1 in
  cond_match P Demo.is_png Demo.photo w0 = Returned true w1
  /\ action_apply DeleteAction Demo.photo w1 = Returned None w2
  /\ os_path_isfile Demo.photo (fs w2) = false
  /\ cond_match P Demo.is_png Demo.photo w2 = Returned true w2.
Proof. vm_compute. repeat split; reflexivity. Qed.

(** The directory [foo] is no regular file: with nothing memoised the
    condition asks [os.path.isfile] and returns false. *)
Lemma mime_match_non_file_witness :
  let P := Demo.platform (DList []) in
  let w := Demo.world Demo.flat in
  os_path_isfile "/home/u/foo" (fs w) = false
  /\ cond_match P Demo.is_png "/home/u/foo" w =
     Returned false
       (with_cache {[ ([0%nat], "/home/u/foo") := false ]}
          (with_calls [CallIsFile "/home/u/foo"] w)).
Proof.
  intros P w.
  assert (Hfile : os_path_isfile "/home/u/foo" (fs w) = false) by (vm_compute; reflexivity).
  split; [exact Hfile|].
  exact (mime_match_non_file P [0%nat] _ _ "/home/u/foo" w Hfile).
Defined.




(** What the short circuit leaves out: the size condition raises on a
    path that does not exist; placed behind a path condition that settles
    the result, it is not asked. *)
Example composite_stops_when_settled :
  let P := Demo.platform (DList []) in
  let w := Demo.world Demo.flat in
  let raises := SizeCondition ">= 0 b" OpGe 0%float in
  let elsewhere := PathCondition {| pattern := "/srv"; ignore_case := false |} in
  let at_home := PathCondition {| pattern := "/home"; ignore_case := false |} in
  cond_match P raises "/home/u/gone" w
  = Raised Demo.ENOENT (with_calls [CallStat "/home/u/gone"] w)
  /\ cond_match P (AllCondition [at_home; elsewhere; raises]) "/home/u/gone" w
     = Returned false w
  /\ cond_match P (AnyCondition [elsewhere; at_home; raises]) "/home/u/gone" w
     = Returned true w
  /\ cond_match P (AllCondition [at_home; raises]) "/home/u/gone" w
     = Raised Demo.ENOENT (with_calls [CallStat "/home/u/gone"] w).
Proof. vm_compute. repeat split; reflexivity. Qed.

(** C4 on the code.  Given the root with a trailing slash, the traversal
    yields the root as [/home/u/foo/] while the ignore set holds
    [/home/u/foo]: the root is asked against the rule, matches, and
    [os.remove] is called on it.  Given [/home/u/foo] the root is passed
    over. *)
Theorem root_spelled_otherwise_is_evaluated :
  let P := Demo.platform Demo.purge_all in
  let w := Demo.world Demo.flat in
  let start := [CallIsFile "/home/u/rules.yml"] in
  effective_ignore_paths P "/home/u/foo/" [Demo.purge_like] = {[ "/home/u/foo" ]}
  /\ paths_of 10 (find_paths "/home/u/foo/" (fun _ => true) false false) Demo.flat
     = Some ["/home/u/foo/a"; "/home/u/foo/"]
  /\ (fun o => stdout (world_of o)) <$> main P 10 (Demo.arguments "/home/u/foo/" true false) w
     = Some ["purge: /home/u/foo/a"; "purge: /home/u/foo/"]
  /\ main P 10 (Demo.arguments "/home/u/foo/" false false) w
     = Some (Raised Demo.EISDIR
               (after [CallIsFile "/home/u/rules.yml"; CallIsDir "/home/u/foo/";
                       CallOpenRead "/home/u/rules.yml";
                       CallStat "/home/u/foo/a"; CallRemove "/home/u/foo/a";
                       CallStat "/home/u/foo/"; CallRemove "/home/u/foo/"]
                  (delete Demo.photo Demo.flat) w))
  /\ main P 10 (Demo.arguments "/home/u/foo" false false) w
     = Some (Returned 0%Z
               (after [CallIsFile "/home/u/rules.yml"; CallIsDir "/home/u/foo";
                       CallOpenRead "/home/u/rules.yml";
                       CallStat "/home/u/foo/a"; CallRemove "/home/u/foo/a"]
                  (delete Demo.photo Demo.flat) w)).
Proof. vm_compute. repeat split; reflexivity. Qed.

(** C6 on the code.  From the relative root [foo] the path yielded for the
    directory itself is [foo/foo], the join of the root with itself, which
    names an entry inside [foo]; [foo] is not yielded.  Below the root the
    same happens for [foo/sub].  From an absolute root the directory itself
    is yielded. *)
Theorem relative_root_yields_root_joined_to_itself :
  paths_of 10 (find_paths "foo" (fun _ => true) false false) Demo.tree
  = Some ["foo/sub"; "foo/a"; "foo/foo"]
  /\ paths_of 20 (find_paths "foo" (fun _ => true) true false) Demo.tree
     = Some ["foo/sub"; "foo/a"; "foo/foo"; "foo/sub/b"; "foo/sub/foo/sub"]
  /\ paths_of 10 (find_paths "/home/u/foo" (fun _ => true) false false) Demo.tree
     = Some ["/home/u/foo/sub"; "/home/u/foo/a"; "/home/u/foo"].
Proof. vm_compute. repeat split; reflexivity. Qed.

(** The destination of [keep] is in the ignore set its rule brings: as a
    candidate it is passed over. *)
Lemma ignored_candidate_is_skipped_witness :
  process_path (Demo.platform (DList [])) false
    (effective_ignore_paths (Demo.platform (DList [])) "/home/u/foo" [Demo.keep])
    [Demo.keep] "/home/u/kept" (Demo.world Demo.flat)
  = Returned tt (Demo.world Demo.flat).
Proof.
  apply (ignored_candidate_is_skipped (Demo.platform (DList [])) false "/home/u/foo"
           [Demo.keep] "/home/u/kept" (Demo.world Demo.flat)).
  right. exists Demo.keep. split; [by apply list_elem_of_singleton|].
  apply elem_of_Rule_init_ignore_paths. left. by apply list_elem_of_singleton.
Defined.

(** Without recursion, from the absolute root: [sub], [a] and the root; the
    file [b] under [sub] is not reached. *)
Lemma find_paths_not_recursive_witness :
  paths_of 10 (find_paths "/home/u/foo" (fun _ => true) false false) Demo.tree
  = Some ["/home/u/foo/sub"; "/home/u/foo/a"; "/home/u/foo"].
Proof.
  pose proof (find_paths_not_recursive "/home/u/foo" (fun _ => true) false Demo.tree
                ["sub"] ["a"] 10) as Hpaths.
  destruct Hpaths as [Hpaths _]; [vm_compute; reflexivity | simpl; lia |].
  rewrite Hpaths. vm_compute. reflexivity.
Defined.

(** A dry run over [foo] with two matching rules ends, and leaves the disk
    as it was. *)
Lemma dry_run_never_mutates_witness :
  match main (Demo.platform Demo.two_rules) 10
          (Demo.arguments "/home/u/foo" true false) (Demo.world Demo.flat) with
  | Some o => undisturbed (Demo.world Demo.flat) (world_of o)
  | None => False
  end.
Proof.
  destruct (main _ _ _ _) as [o|] eqn:Hmain.
  - exact (dry_run_never_mutates (Demo.platform Demo.two_rules) 10
             (Demo.arguments "/home/u/foo" true false) (Demo.world Demo.flat) o
             eq_refl Hmain).
  - vm_compute in Hmain. discriminate Hmain.
Defined.

(** * The further properties at work *)

(** The rule file of [keep]: one rule that moves every path that exists
    under [kept]. *)
Definition keep_rules : Data :=
  DList [DDict [(SStr "keep",
                 DDict [(SStr "condition", DDict [(SStr "size", DScalar (SStr ">= 0 b"))]);
                        (SStr "actions",
                         DList [DDict [(SStr "move", DScalar (SStr "/home/u/kept"))]])])]].

(** A condition on PNG images whose [magic_bytes] is no number: reading
    the file raises. *)
Definition misread_png : Condition :=
  MimeCondition [0%nat] {| pattern := "image/png"; ignore_case := true |}
    (DScalar (SStr "many")).

(** Two hours after the epoch, on the disk [flat]. *)
Definition two_hours_on : World Demo.Files :=
  {| fs := Demo.flat; mime_cache := ∅; stdout := []; stderr := [];
     now := 7200000000; calls := [] |}.

(** The image is smaller than a kilobyte: [big] does not match it, and
    the loop over [big] alone only reads. *)
Lemma unmatched_candidate_untouched_witness :
  let P := Demo.platform (DList []) in
  let w := Demo.world Demo.flat in
  let w1 := with_calls [CallStat Demo.photo] w in
  each_rule P false Demo.photo [Demo.big] w w1
  /\ run_rules P false [Demo.big] Demo.photo w = Returned tt w1
  /\ observes w w1.
Proof.
  intros P w w1.
  assert (Hm : Rule_match P Demo.big Demo.photo w = Returned false w1)
    by (vm_compute; reflexivity).
  assert (H1 : each_rule P false Demo.photo [Demo.big] w w1)
    by (eapply run_each_cons; [exact Hm | apply run_each_nil]).
  split; [exact H1|].
  exact (unmatched_candidate_untouched P false [Demo.big] Demo.photo w w1 H1).
Defined.

(** The image matched once: the result is in the cache, and is returned
    again whatever the disk has become. *)
Lemma mime_result_is_memoised_witness :
  let P := Demo.platform (DList []) in
  let w := Demo.world Demo.flat in
  let w1 := with_cache {[ ([0%nat], Demo.photo) := true ]}
              (with_calls [CallIsFile Demo.photo; CallOpenRead Demo.photo;
                           CallMagic Demo.PNG] w) in
  cond_match P Demo.is_png Demo.photo w = Returned true w1
  /\ mime_cache w1 !! ([0%nat], Demo.photo) = Some true
  /\ forall f' : Demo.Files,
       cond_match P Demo.is_png Demo.photo (with_fs f' w1) = Returned true (with_fs f' w1).
Proof.
  intros P w w1.
  assert (H1 : cond_match P Demo.is_png Demo.photo w = Returned true w1)
    by (vm_compute; reflexivity).
  split; [exact H1|].
  exact (mime_result_is_memoised P [0%nat] _ _ Demo.photo w w1 true H1).
Defined.

(** Reading the image with a [magic_bytes] that is no number raises
    [TypeError]: the cache stays empty. *)
Lemma mime_failure_is_not_memoised_witness :
  let P := Demo.platform (DList []) in
  let w := Demo.world Demo.flat in
  let w1 := with_calls [CallIsFile Demo.photo; CallOpenRead Demo.photo] w in
  cond_match P misread_png Demo.photo w = Raised TypeError w1
  /\ mime_cache w1 = mime_cache w
  /\ mime_cache w !! ([0%nat], Demo.photo) = None.
Proof.
  intros P w w1.
  assert (H1 : cond_match P misread_png Demo.photo w = Raised TypeError w1)
    by (vm_compute; reflexivity).
  split; [exact H1|].
  exact (mime_failure_is_not_memoised P [0%nat] _ _ Demo.photo w w1 TypeError H1).
Defined.

(** There is no [/home/u/gone]: both conditions raise [ENOENT]. *)
Lemma stat_conditions_raise_on_missing_path_witness :
  let P := Demo.platform (DList []) in
  let w := Demo.world Demo.flat in
  os_stat "/home/u/gone" (fs w) = Fail Demo.ENOENT
  /\ cond_match P (SizeCondition "> 1 hours" OpGt 1024%float) "/home/u/gone" w
     = Raised Demo.ENOENT (with_calls (calls w ++ [CallStat "/home/u/gone"]) w)
  /\ cond_match P (AgeCondition "> 1 hours" OpGt 3600000000) "/home/u/gone" w
     = Raised Demo.ENOENT (with_calls (calls w ++ [CallStat "/home/u/gone"]) w).
Proof.
  intros P w.
  assert (H1 : os_stat "/home/u/gone" (fs w) = Fail Demo.ENOENT) by (vm_compute; reflexivity).
  split; [exact H1|].
  exact (stat_conditions_raise_on_missing_path P "> 1 hours" OpGt 1024%float 3600000000
           "/home/u/gone" w Demo.ENOENT H1).
Defined.

(** Two hours after the image was modified, it is older than one hour. *)
Lemma age_match_compares_elapsed_time_witness :
  let P := Demo.platform (DList []) in
  let w := two_hours_on in
  cond_match P (AgeCondition "> 1 hours" OpGt 3600000000) Demo.photo w
  = Returned true (with_calls [CallStat Demo.photo] w).
Proof.
  intros P w.
  exact (proj1 (age_match_compares_elapsed_time P "> 1 hours" OpGt 3600000000 Demo.photo w
                  {| st_size := 8; st_mtime := 0%float |} 0 eq_refl eq_refl)).
Defined.

(** A file of a million bytes is [>= 1 mib]. *)
Lemma size_comparators_at_units_witness :
  UNITS !! "mib" = Some (1000 ^ 2)%Z
  /\ size_predicate OpGe (PrimFloat.mul (Py.float_of_Z (1000 ^ 2)) (Py.float_of_Z 1)) 1000000
     = holds OpGe 1000000 (1000 ^ 2).
Proof.
  assert (H1 : UNITS !! "mib" = Some (1000 ^ 2)%Z) by (vm_compute; reflexivity).
  split; [exact H1|].
  exact (size_comparators_at_units OpGe "mib" (1000 ^ 2) 1000000 H1).
Defined.

(** Asked for rules in [/home/u/none.yml], [main] ends with status 1. *)
Lemma main_exit_status_witness :
  let P := Demo.platform (DList []) in
  let w := Demo.world Demo.flat in
  let arguments := {| ns_rules := "/home/u/none.yml"; ns_path := "/home/u/foo";
                      ns_dry_run := false; ns_recursive := false;
                      ns_follow_symlinks := false |} in
  main P 10 arguments w
  = Some (Returned 1%Z
            (with_stderr (stderr w ++ ["No such file: " +:+ ns_rules arguments])
               (with_calls (calls w ++ [CallIsFile (ns_rules arguments)]) w))).
Proof.
  intros P w arguments.
  apply (proj1 (main_exit_status P 10 arguments w)).
  vm_compute. reflexivity.
Defined.

(** [kept] cannot be made below the rule file: the move fails at
    [os.makedirs], and the delete after it is not applied. *)
Lemma failing_action_stops_chain_witness :
  let w := Demo.world Demo.flat in
  apply_actions [MoveAction "/home/u/rules.yml/kept"; DeleteAction] Demo.photo w
  = Raised Demo.ENOTDIR (with_calls [CallMakedirs "/home/u/rules.yml/kept"] w).
Proof.
  intros w.
  assert (Hmk : os_makedirs "/home/u/rules.yml/kept" (fs w) = Fail Demo.ENOTDIR)
    by (vm_compute; reflexivity).
  apply (proj1 failing_action_stops_chain [] (MoveAction "/home/u/rules.yml/kept")
           [DeleteAction] Demo.photo w Demo.photo w Demo.ENOTDIR).
  - reflexivity.
  - exact (proj1 (proj2 failing_action_stops_chain "/home/u/rules.yml/kept" Demo.photo w
                    Demo.ENOTDIR Hmk)).
Defined.

(** The two rules of [two_rules] come out in the order declared. *)
Lemma rules_keep_declaration_order_witness :
  let P := Demo.platform (DList []) in
  let rules := [Demo.purge_like;
                Rule_init (SStr "two") (SizeCondition ">= 0 b" OpGe 0%float) [DeleteAction]] in
  make_rules P Demo.two_rules = Ok rules
  /\ exists decls,
       py_iter Demo.two_rules = Ok decls
       /\ length rules = length decls
       /\ forall k rule, rules !! k = Some rule ->
            exists body rest,
              decls !! k = Some (DDict ((name rule, body) :: rest))
              /\ make_rule P k (DDict ((name rule, body) :: rest)) = Ok rule.
Proof.
  intros P rules.
  assert (H1 : make_rules P Demo.two_rules = Ok rules) by (vm_compute; reflexivity).
  split; [exact H1|].
  exact (rules_keep_declaration_order P Demo.two_rules rules H1).
Defined.

(** The rule built from [keep_rules] ignores [kept], its destination. *)
Lemma built_rules_ignore_their_destinations_witness :
  "/home/u/kept" ∈ ignore_paths Demo.keep
  <-> MoveAction "/home/u/kept" ∈ actions Demo.keep
      \/ CopyAction "/home/u/kept" ∈ actions Demo.keep.
Proof.
  apply (built_rules_ignore_their_destinations (Demo.platform (DList [])) keep_rules
           [Demo.keep] Demo.keep "/home/u/kept").
  - vm_compute. reflexivity.
  - by apply list_elem_of_singleton.
Defined.

(** A rule whose body has a condition and no [actions]. *)
Lemma malformed_rule_declarations_witness :
  make_rule (Demo.platform (DList [])) 0
    (DDict [(SStr "one", DDict [(SStr "condition", DScalar (SStr "all"))])])
  = Fail KeyError.
Proof.
  apply (proj1 (proj2 (proj2 (proj2 (proj2 (proj2
           (malformed_rule_declarations (Demo.platform (DList [])) 0))))))
           (SStr "one") [(SStr "condition", DScalar (SStr "all"))] []
           (DScalar (SStr "all")) (AllCondition [])); reflexivity.
Defined.

(** A condition written as the value of [not] is refused. *)
Lemma composite_arguments_as_mapping_witness :
  make_condition (Demo.platform (DList [])) [0%nat]
    (DDict [(SStr "not", DDict [(SStr "path", DScalar (SStr "/home"))])])
  = Fail TypeError.
Proof.
  apply (proj1 (proj2 (composite_arguments_as_mapping (Demo.platform (DList []))))).
  - reflexivity.
  - right. reflexivity.
Defined.

(** A bare [all] matches the image without a call. *)
Lemma empty_composites_witness :
  let P := Demo.platform (DList []) in
  let w := Demo.world Demo.flat in
  table_get CONDITIONS (SStr "all") = Some (ClsTerm ClsAll)
  /\ make_condition P [0%nat] (DScalar (SStr "all")) = Ok (AllCondition [])
  /\ cond_match P (AllCondition []) Demo.photo w = Returned true w.
Proof.
  intros P w.
  assert (H1 : table_get CONDITIONS (SStr "all") = Some (ClsTerm ClsAll)) by reflexivity.
  split; [exact H1|].
  pose proof (empty_composites P [0%nat] (SStr "all") ClsAll Demo.photo w H1)
    as (Hb & _ & _ & Hm).
  split; [exact Hb | exact Hm].
Defined.

(** A size without a space before the unit; an age in fractions of an
    hour. *)
Lemma condition_string_errors_witness :
  let P := Demo.platform (DList []) in
  make_condition P [0%nat] (DDict [(SStr "size", DScalar (SStr "> 1kb"))]) = Fail ValueError
  /\ make_condition P [0%nat] (DDict [(SStr "age", DScalar (SStr "> 1.5 hours"))])
     = Fail ValueError.
Proof.
  intros P. split.
  - apply (proj1 (condition_string_errors P [0%nat] "> 1kb")). vm_compute. lia.
  - apply (proj1 (proj2 (proj2 (condition_string_errors P [0%nat] "> 1.5 hours")))
             ">" "1.5" "hours" OpGt); reflexivity.
Defined.

(** A copy whose destination is given in a list. *)
Lemma action_arguments_witness :
  make_action (Demo.platform (DList []))
    (DDict [(SStr "copy", DList [DScalar (SStr "/home/u/kept")])])
  = Ok (CopyAction "/home/u/kept").
Proof.
  exact (proj1 (proj2 (proj1 (proj1 (action_arguments (Demo.platform (DList []))) "copy"
                                 CopyAction (or_intror (conj eq_refl eq_refl)))
                               "/home/u/kept"))).
Defined.

(** Below [foo], the root left out by the predicate. *)
Lemma find_paths_yields_only_accepted_witness :
  let accepted p := bool_decide (p <> "/home/u/foo") in
  paths_of 20 (find_paths "/home/u/foo" accepted true false) Demo.tree
  = Some ["/home/u/foo/sub"; "/home/u/foo/a"; "/home/u/foo/sub/b"; "/home/u/foo/sub"]
  /\ Forall (fun p => accepted p = true)
       ["/home/u/foo/sub"; "/home/u/foo/a"; "/home/u/foo/sub/b"; "/home/u/foo/sub"].
Proof.
  intros accepted.
  assert (H1 : paths_of 20 (find_paths "/home/u/foo" accepted true false) Demo.tree
               = Some ["/home/u/foo/sub"; "/home/u/foo/a"; "/home/u/foo/sub/b";
                       "/home/u/foo/sub"]) by (vm_compute; reflexivity).
  split; [exact H1|].
  exact (find_paths_yields_only_accepted 20 (find_paths "/home/u/foo" accepted true false)
           Demo.tree _ H1).
Defined.

(** The traversal of [foo] at the moment it is about to yield [gone], a
    name listed before the file was removed, with [a] still to come. *)
Definition about_to_yield_gone : PathGen :=
  {| predicate := fun _ => true; recursive := false; follow_symlinks := false;
     current := Some ("/home/u/foo", ["gone"; "a"]);
     walker := {| start := None; frames := [("/home/u/foo", [])] |} |}.

(** The first rule of a rule file: PNG images are deleted. *)
Definition png_rule : Rule :=
  Rule_init (SStr "png") Demo.is_png [DeleteAction].

(** [purge] asks the size of [gone]: [os.stat] raises, and the run ends
    there; [a] is not reached. *)
Lemma uncaught_exception_ends_the_run_witness :
  let P := Demo.platform (DList []) in
  let w := Demo.world Demo.flat in
  main_loop P 9 false ∅ [Demo.purge] about_to_yield_gone w
  = Some (Raised Demo.ENOENT (with_calls [CallStat "/home/u/foo/gone"] w)).
Proof.
  intros P w.
  assert (Hstep : find_paths_step about_to_yield_gone (fs w)
                  = Yield "/home/u/foo/gone"
                      (with_current about_to_yield_gone (Some ("/home/u/foo", ["a"]))))
    by reflexivity.
  assert (Hin : "/home/u/foo/gone" ∉ (∅ : gset string)) by apply not_elem_of_empty.
  assert (Hpre : each_rule P false "/home/u/foo/gone" [] w w) by constructor.
  assert (Hm : Rule_match P Demo.purge "/home/u/foo/gone" w
               = Raised Demo.ENOENT (with_calls [CallStat "/home/u/foo/gone"] w))
    by (vm_compute; reflexivity).
  exact (proj1 (uncaught_exception_ends_the_run P 8 ∅ [] [] Demo.purge about_to_yield_gone
                  _ "/home/u/foo/gone" w w Hstep Hin Hpre) false _ _ Hm).
Defined.

(** Over [foo] without a rule: the traversal ends and the world is the
    one it started in. *)
Lemma no_rules_no_effect_witness :
  let P := Demo.platform (DList []) in
  let w := Demo.world Demo.flat in
  let paths := find_paths "/home/u/foo" (fun _ => true) false false in
  exists o, main_loop P 10 false ∅ [] paths w = Some o /\ o = Returned tt w.
Proof.
  intros P w paths. exists (Returned tt w).
  assert (Hloop : main_loop P 10 false ∅ [] paths w = Some (Returned tt w))
    by (vm_compute; reflexivity).
  split; [exact Hloop|].
  exact (no_rules_no_effect P 10 false ∅ paths w _ Hloop).
Defined.

(** The rule [png_rule] matches the image, which memoises the result, and
    deletes it: the entry made by the match is still there. *)
Lemma memoised_results_survive_the_run_witness :
  let P := Demo.platform (DList []) in
  let w := Demo.world Demo.flat in
  let w1 := with_cache {[ ([0%nat], Demo.photo) := true ]}
              (with_calls [CallIsFile Demo.photo; CallOpenRead Demo.photo;
                           CallMagic Demo.PNG] w) in
  let w2 := after [CallRemove Demo.photo] (delete Demo.photo Demo.flat) w1 in
  Rule_match P png_rule Demo.photo w = Returned true w1
  /\ mime_cache w1 !! ([0%nat], Demo.photo) = Some true
  /\ Rule_apply png_rule Demo.photo w1 = Returned Demo.photo w2
  /\ os_path_isfile Demo.photo (fs w2) = false
  /\ mime_cache w2 !! ([0%nat], Demo.photo) = Some true.
Proof.
  intros P w w1 w2.
  assert (H1 : Rule_match P png_rule Demo.photo w = Returned true w1)
    by (vm_compute; reflexivity).
  assert (Hkey : mime_cache w1 !! ([0%nat], Demo.photo) = Some true)
    by (vm_compute; reflexivity).
  assert (H2 : Rule_apply png_rule Demo.photo w1 = Returned Demo.photo w2)
    by (vm_compute; reflexivity).
  assert (H3 : os_path_isfile Demo.photo (fs w2) = false) by (vm_compute; reflexivity).
  split; [exact H1 | split; [exact Hkey | split; [exact H2 | split; [exact H3|]]]].
  pose proof (proj1 (proj2 (memoised_results_survive_the_run P ([0%nat], Demo.photo) true
                              w1 Hkey)) [DeleteAction] Demo.photo) as Hk.
  change (apply_actions [DeleteAction] Demo.photo w1)
    with (Rule_apply png_rule Demo.photo w1) in Hk.
  rewrite H2 in Hk. exact Hk.
Defined.

(** The image matched: the cache holds that one entry more. *)
Lemma mime_match_caches_under_own_key_witness :
  let P := Demo.platform (DList []) in
  let w := Demo.world Demo.flat in
  let w1 := with_cache {[ ([0%nat], Demo.photo) := true ]}
              (with_calls [CallIsFile Demo.photo; CallOpenRead Demo.photo;
                           CallMagic Demo.PNG] w) in
  cond_match P Demo.is_png Demo.photo w = Returned true w1
  /\ mime_cache w1 = <[([0%nat], Demo.photo) := true]> (mime_cache w).
Proof.
  intros P w w1.
  assert (H1 : cond_match P Demo.is_png Demo.photo w = Returned true w1)
    by (vm_compute; reflexivity).
  split; [exact H1|].
  exact (mime_match_caches_under_own_key P [0%nat] _ _ Demo.photo w w1 true H1).
Defined.
